(** * unix-socket-http-veil: the rule compiler, the authorizer and the
      request dispatcher of [src/veil.go]

    The source file holds two programs. This development embeds the second,
    method-keyed one (lines 237-430: [determineAccessRules] at 379-406,
    [obtainRequestHandler] at 270-331, [readFileLines] at 347-374). Of the
    first, path-keyed one (lines 19-218) it embeds the compiler and the
    handlers, in the module [PathKeyed]; the gorilla/mux router that this
    program puts in front of its handlers is not modelled, and neither are
    the socket listener and the parsing of the command line.

    The program reads an allowlist of [METHOD~path] lines, groups the paths
    by HTTP method, sorts each group, and then serves requests: a request
    whose method is one of the five supported verbs and whose path is found
    by binary search in its method's group is relayed to the target socket;
    every other request is answered with a fixed JSON body.

    Go strings are byte strings and compare bytewise, which is what
    [String.string] with [String.leb] gives; the Go map is a [gmap]; a Go
    slice is a [list]; an index expression that can panic is an operation
    of the [go] monad below. The handler's effects (writes to the
    [ResponseWriter], calls of the relay client) are recorded in a trace.
    Of net/http only the interface is modelled: whether [http.NewRequest]
    rejects its arguments and what the client's [Do] returns are parameters
    of the handler, and an outbound request is the triple it was built
    from. *)

From Stdlib Require Import Ascii String.
From stdpp Require Import gmap strings list sorting.

(** ** Run-time panics

    The only way the modelled code can stop abnormally is a run-time panic
    of an index expression [a[i]] with [i] out of range. *)

Inductive go (A : Type) : Type :=
| Ok (a : A)
| Panic.
Arguments Ok {A} a.
Arguments Panic {A}.

#[global] Instance go_ret : MRet go := fun _ a => Ok a.
#[global] Instance go_bind : MBind go := fun _ _ f m =>
  match m with
  | Ok a => f a
  | Panic => Panic
  end.

(** [a[i]] on a slice. *)
Definition index {A} (a : list A) (i : nat) : go A :=
  match a !! i with
  | Some x => Ok x
  | None => Panic
  end.

(** ** The pieces of Go's library the program calls *)

(** [strings.Split(s, sep)] for a separator of one byte: the fields of [s]
    between the occurrences of [sep], one more than there are occurrences. *)
Fixpoint strings_Split (s : string) (sep : ascii) : list string :=
  match s with
  | EmptyString => [EmptyString]
  | String c rest =>
      if Ascii.eqb c sep then EmptyString :: strings_Split rest sep
      else match strings_Split rest sep with
           | field :: fields => String c field :: fields
           | [] => [String c EmptyString]
           end
  end.

(** [strings.Count(s, sep)] for a separator of one byte. *)
Fixpoint strings_Count (s : string) (sep : ascii) : nat :=
  match s with
  | EmptyString => 0
  | String c rest => (if Ascii.eqb c sep then 1 else 0) + strings_Count rest sep
  end.

(** [sort.Strings(a)]: the slice in increasing order of Go's [<] on strings.
    Two strings that compare equal are the same string, so the outcome does
    not depend on the sorting algorithm (see [sort_Strings_canonical]). *)
Definition sort_Strings (a : list string) : list string :=
  merge_sort String.le a.

(** The loop of [sort.Search(n, f)]:
    [for i < j { h := int(uint(i+j) >> 1); if !f(h) { i = h + 1 } else { j = h } }; return i].
    Each turn shrinks [j - i], so [j - i] turns are enough. *)
Fixpoint search_loop (turns : nat) (f : nat → bool) (i j : nat) : nat :=
  match turns with
  | 0 => i
  | S turns' =>
      if decide (i < j) then
        let h := (i + j) / 2 in
        if negb (f h) then search_loop turns' f (h + 1) j
        else search_loop turns' f i h
      else i
  end.

Definition sort_Search (n : nat) (f : nat → bool) : nat :=
  search_loop n f 0 n.

(** [sort.SearchStrings(a, x)] is [sort.Search(len(a), func(i) { return a[i] >= x })]. *)
Definition sort_SearchStrings (a : list string) (x : string) : nat :=
  sort_Search (length a)
    (fun i => match a !! i with
              | Some y => bool_decide (String.le x y)
              | None => false
              end).

(** ** The rule compiler: [determineAccessRules] *)

Definition accessRuleStringDelimiter : ascii := "~"%char.

(** The body of the first loop, for one [rule]. *)
Definition addRule (accessRulesMap : gmap string (list string)) (rule : string)
  : go (gmap string (list string)) :=
  let splitRule := strings_Split rule accessRuleStringDelimiter in
  if decide (length splitRule ≠ 2) then Ok accessRulesMap
  else
    ruleHTTPMethod ← index splitRule 0;
    ruleResourcePath ← index splitRule 1;
    let accessRulesMap :=
      match accessRulesMap !! ruleHTTPMethod with
      | Some _ => accessRulesMap
      | None => <[ruleHTTPMethod := []]> accessRulesMap
      end in
    (* reading a Go map at a missing key gives the zero value *)
    let accessRulesForMethod := default [] (accessRulesMap !! ruleHTTPMethod) in
    Ok (<[ruleHTTPMethod := accessRulesForMethod ++ [ruleResourcePath]]> accessRulesMap).

(** [for _, rule := range accessRulesList { ... }] *)
Fixpoint rangeRules (accessRulesList : list string)
    (accessRulesMap : gmap string (list string)) : go (gmap string (list string)) :=
  match accessRulesList with
  | [] => Ok accessRulesMap
  | rule :: rest => accessRulesMap' ← addRule accessRulesMap rule; rangeRules rest accessRulesMap'
  end.

(** The second loop sorts the list held at every key; the keys do not
    interact, so the order in which Go ranges over the map is immaterial. *)
Definition determineAccessRules (accessRulesList : list string)
  : go (gmap string (list string)) :=
  accessRulesMap ← rangeRules accessRulesList ∅;
  Ok (sort_Strings <$> (accessRulesMap : gmap string (list string))).

(** ** The request dispatcher: [obtainRequestHandler] *)

(** What the handler reads of the inbound [*http.Request]. *)
Record Request : Type := {
  Method : string;
  URL_Path : string;
  Body : string;
}.

(** The outbound request: what [http.NewRequest(method, url, body)] was
    given, and the deadline that [WithContext] attaches, in seconds. *)
Record OutRequest : Type := {
  outMethod : string;
  outURL : string;
  outBody : string;
  outDeadline : option nat;
}.

Record Response : Type := { respBody : string }.

(** The errors the [Do] method of [http.Client] can return. *)
Inductive DoError : Type :=
| DeadlineExceeded
| DialFailed
| TransportFailed.

(** The effects of one handler call, in the order they happen. *)
Inductive Event : Type :=
| EvWrite (bytes : string)
| EvDo (req : OutRequest).

#[global] Instance OutRequest_eq_dec : EqDecision OutRequest.
Proof. solve_decision. Defined.
#[global] Instance Event_eq_dec : EqDecision Event.
Proof. solve_decision. Defined.

(** A handler step: it extends the trace of effects, or panics. *)
Definition Handler (A : Type) : Type := list Event → go (A * list Event).

#[global] Instance Handler_ret : MRet Handler := fun _ a trace => Ok (a, trace).
#[global] Instance Handler_bind : MBind Handler := fun _ _ f m trace =>
  match m trace with
  | Ok (a, trace') => f a trace'
  | Panic => Panic
  end.

Definition emit (e : Event) : Handler unit := fun trace => Ok (tt, trace ++ [e]).
Definition lift {A} (m : go A) : Handler A := fun trace =>
  match m with
  | Ok a => Ok (a, trace)
  | Panic => Panic
  end.

(** The effects of a whole call, from the empty trace. *)
Definition run (h : Handler unit) : go (list Event) :=
  match h [] with
  | Ok (_, trace) => Ok trace
  | Panic => Panic
  end.

Definition writes (trace : list Event) : list string :=
  omap (fun e => match e with EvWrite s => Some s | EvDo _ => None end) trace.
Definition relayCalls (trace : list Event) : list OutRequest :=
  omap (fun e => match e with EvDo q => Some q | EvWrite _ => None end) trace.

(** The fixed bodies are JSON texts. They are written here with ['] where
    the source has the double-quote byte (34); [json] puts that byte back. *)
Definition dquote : ascii := ascii_of_nat 34.

Fixpoint json (s : string) : string :=
  match s with
  | EmptyString => EmptyString
  | String c rest => String (if Ascii.eqb c "'"%char then dquote else c) (json rest)
  end.

Definition unauthorizedMsgString : string := Eval cbv in
  json "{'type':'error','status-code':401,'status':'Unauthorized','result':{'message':'access dEEEEEenied','kind':'login-required'}}".
Definition unknownMsgString : string := Eval cbv in
  json "{'type':'error','status-code':404,'status':'Not Found','result':{'message':'not found'}}".
Definition badRequestString : string := Eval cbv in
  json "{'type':'error','status-code':400,'status':'Invalid Request','result':{'message':'bad request'}}".
Definition requestTimeoutString : string := Eval cbv in
  json "{'type':'error','status-code':408,'status':'Request Timeout','result':{'message':'request timed out'}}".
Definition internalErrorString : string := Eval cbv in
  json "{'type':'error','status-code':500,'status':'Internal Server Error','result':{'message':'internal server error'}}".

(** The [switch r.Method] of the handler: the five cases that fall through
    to the relay code; every other method takes [default]. *)
Definition supportedMethod (method : string) : bool :=
  bool_decide (method ∈ ["GET"; "POST"; "DELETE"; "PATCH"; "PUT"]).

(** Lines 295-309 of the handler, the allow/deny decision. Both of its
    deny branches write [unauthorizedMsgString] and return, so the handler
    below does that once, on the answer [false]. Go's [||] evaluates its
    right operand, the index expression, only when the left one is false. *)
Definition authorize (accessRulesMap : gmap string (list string))
    (method path : string) : go bool :=
  match accessRulesMap !! method with
  | None => Ok false
  | Some accessRulesForMethodType =>
      let requestAllowanceRuleIndex := sort_SearchStrings accessRulesForMethodType path in
      if decide (requestAllowanceRuleIndex = length accessRulesForMethodType) then Ok false
      else
        found ← index accessRulesForMethodType requestAllowanceRuleIndex;
        if decide (found ≠ path) then Ok false else Ok true
  end.

Section Dispatcher.

(** The world outside the program: whether [http.NewRequest] rejects a
    method and URL, and what the client's call to the target socket
    returns for an outbound request. *)
Variable newRequestFails : string → string → bool.
Variable targetDo : OutRequest → Response + DoError.

Definition http_NewRequest (method url body : string) : option OutRequest :=
  if newRequestFails method url then None
  else Some {| outMethod := method; outURL := url; outBody := body; outDeadline := None |}.

Definition WithContext (req : OutRequest) (seconds : nat) : OutRequest :=
  {| outMethod := outMethod req; outURL := outURL req; outBody := outBody req;
     outDeadline := Some seconds |}.

Definition io_WriteString (s : string) : Handler unit := emit (EvWrite s).
Definition io_Copy (body : string) : Handler unit := emit (EvWrite body).
Definition client_Do (req : OutRequest) : Handler (Response + DoError) :=
  emit (EvDo req);; mret (targetDo req).

Definition obtainRequestHandler (accessRulesMap : gmap string (list string))
    (r : Request) : Handler unit :=
  let requestPath := "http://unix" +:+ URL_Path r in
  let requestContext := 5 in
  if supportedMethod (Method r) then
    allowed ← lift (authorize accessRulesMap (Method r) (URL_Path r));
    if negb allowed then io_WriteString unauthorizedMsgString
    else
      match http_NewRequest (Method r) requestPath (Body r) with
      | None => io_WriteString internalErrorString
      | Some httpRequest =>
          let httpRequest := WithContext httpRequest requestContext in
          result ← client_Do httpRequest;
          match result with
          | inr errReqPeform => io_WriteString requestTimeoutString
          | inl response => io_Copy (respBody response)
          end
      end
  else io_WriteString badRequestString.

(** [main]: the table is compiled once and captured by the handler. *)
Definition serve (accessRulesList : list string) (r : Request) : go (list Event) :=
  accessRulesMap ← determineAccessRules accessRulesList;
  run (obtainRequestHandler accessRulesMap r).

End Dispatcher.

(** ** Reading the rule file: [readFileLines] *)

(** [bufio.MaxScanTokenSize]: the size of the largest buffer a
    [bufio.Scanner] allocates. *)
Definition bufio_MaxScanTokenSize : nat := 64 * 1024.

(** [dropCR] of package bufio: one trailing carriage return is dropped. *)
Fixpoint dropCR (data : string) : string :=
  match data with
  | EmptyString => EmptyString
  | String c rest =>
      match rest with
      | EmptyString => if Ascii.eqb c "013"%char then EmptyString else data
      | String _ _ => String c (dropCR rest)
      end
  end.

(** The tokens that successive calls of [scanner.Scan()] deliver with the
    split function [bufio.ScanLines], and whether the scanner stopped on
    [bufio.ErrTooLong]. [line] holds the bytes of the current line read so
    far. A line ends at a newline byte or at the end of the input; the end
    of the input after a newline (or in an empty input) gives no token. The
    scanner gives up when 64 KiB of a line fill its buffer with no newline
    among them. *)
Fixpoint scanLines (content line : string) : list string * bool :=
  match content with
  | EmptyString =>
      if decide (String.length line = 0) then ([], false)
      else if decide (bufio_MaxScanTokenSize ≤ String.length line) then ([], true)
      else ([dropCR line], false)
  | String c rest =>
      if Ascii.eqb c "010"%char then
        if decide (bufio_MaxScanTokenSize ≤ String.length line) then ([], true)
        else (dropCR line :: (scanLines rest EmptyString).1, (scanLines rest EmptyString).2)
      else scanLines rest (line +:+ String c EmptyString)
  end.

(** An opened file: the bytes that reading it delivers, and whether the
    reading ends in an error instead of the end of the file. *)
Record File : Type := {
  fileBytes : string;
  fileReadError : bool;
}.

(** What [readFileLines] hands to [log.Println]. *)
Inductive LogEntry : Type :=
| ErrorOpeningFilepath (filepath : string)
| ErrorScanningFile (filepath : string).

Section Files.

(** [os.Open]: the file at a path, or none when it cannot be opened. *)
Variable os_Open : string → option File.

(** The lines of the file and the log entries written. [scanner.Err()] is
    non-nil after a line too long and after a read error. *)
Definition readFileLines (filepath : string) : list string * list LogEntry :=
  if decide (String.length filepath = 0) then ([], [])
  else
    match os_Open filepath with
    | None => ([], [ErrorOpeningFilepath filepath])
    | Some file =>
        let scanned := scanLines (fileBytes file) EmptyString in
        (filter (fun currentText => 0 < String.length currentText) scanned.1,
         if scanned.2 || fileReadError file then [ErrorScanningFile filepath] else [])
    end.

Section Veil.

Variable newRequestFails : string → string → bool.
Variable targetDo : OutRequest → Response + DoError.

(** [main], once the three arguments are there: the handler serves with
    the table compiled from the lines of the rule file. *)
Definition veil (accessRulesFilepath : string) (r : Request) : go (list Event) :=
  serve newRequestFails targetDo (readFileLines accessRulesFilepath).1 r.

End Veil.

End Files.

(** ** The path-keyed program (lines 19-218 of the source) *)

(** [funk.UniqString(a)]: the first occurrence of every string of [a], in
    the order of [a]; [seen] is the set of the strings met so far. *)
Fixpoint uniqLoop (a : list string) (seen : gset string) : list string :=
  match a with
  | [] => []
  | v :: rest =>
      if decide (v ∈ seen) then uniqLoop rest seen
      else v :: uniqLoop rest ({[v]} ∪ seen)
  end.

Definition funk_UniqString (a : list string) : list string := uniqLoop a ∅.

Module PathKeyed.

Definition unauthorizedMsgString : string := Eval cbv in
  json "{'type':'error','status-code':401,'status':'Unauthorized','result':{'message':'access denied'}}".
Definition unknownMsgString : string := Eval cbv in
  json "{'type':'error','status-code':404,'status':'Not Found','result':{'message':'not found'}}".
Definition badRequestString : string := Eval cbv in
  json "{'type':'error','status-code':400,'status':'Invalid Request','result':{'message':'bad request'}}".
Definition requestTimeoutString : string := Eval cbv in
  json "{'type':'error','status-code':408,'status':'Request Timeout','result':{'message':'request timed out'}}".
Definition internalErrorString : string := Eval cbv in
  json "{'type':'error','status-code':500,'status':'Internal Server Error','result':{'message':'internal server error'}}".

(** The body of the first loop of [determineAccessRules] (158-173): the
    map goes from the resource path to the methods. *)
Definition addRule (accessRulesMap : gmap string (list string)) (rule : string)
  : go (gmap string (list string)) :=
  let splitRule := strings_Split rule accessRuleStringDelimiter in
  if decide (length splitRule ≠ 2) then Ok accessRulesMap
  else
    ruleHTTPMethod ← index splitRule 0;
    ruleResourcePath ← index splitRule 1;
    let accessRulesMap :=
      match accessRulesMap !! ruleResourcePath with
      | Some _ => accessRulesMap
      | None => <[ruleResourcePath := []]> accessRulesMap
      end in
    let accessRulesForPath := default [] (accessRulesMap !! ruleResourcePath) in
    Ok (<[ruleResourcePath := accessRulesForPath ++ [ruleHTTPMethod]]> accessRulesMap).

Fixpoint rangeRules (accessRulesList : list string)
    (accessRulesMap : gmap string (list string)) : go (gmap string (list string)) :=
  match accessRulesList with
  | [] => Ok accessRulesMap
  | rule :: rest => accessRulesMap' ← addRule accessRulesMap rule; rangeRules rest accessRulesMap'
  end.

(** The second loop (175-179) sorts the list at every key and then keeps
    one copy of every method. *)
Definition determineAccessRules (accessRulesList : list string)
  : go (gmap string (list string)) :=
  accessRulesMap ← rangeRules accessRulesList ∅;
  Ok ((fun accessRulesListForPath => funk_UniqString (sort_Strings accessRulesListForPath))
        <$> (accessRulesMap : gmap string (list string))).

Section Handlers.

Variable newRequestFails : string → string → bool.
Variable targetDo : OutRequest → Response + DoError.

(** [obtainSocketRequestHandler] (60-99): the relay, with no look at any
    rule; the router in front of it decides which requests reach it. *)
Definition obtainSocketRequestHandler (r : Request) : Handler unit :=
  let requestPath := "http://unix" +:+ URL_Path r in
  let requestContext := 5 in
  if supportedMethod (Method r) then
    match http_NewRequest newRequestFails (Method r) requestPath (Body r) with
    | None => io_WriteString internalErrorString
    | Some httpRequest =>
        let httpRequest := WithContext httpRequest requestContext in
        result ← client_Do targetDo httpRequest;
        match result with
        | inr errReqPeform => io_WriteString requestTimeoutString
        | inl response => io_Copy (respBody response)
        end
    end
  else io_WriteString badRequestString.

Definition unknownRequestHandler (r : Request) : Handler unit :=
  io_WriteString unknownMsgString.

Definition forbiddenRequestHandler (r : Request) : Handler unit :=
  io_WriteString unauthorizedMsgString.

End Handlers.

End PathKeyed.

(** ** Notions used in the statements *)

(** The pair (method, path) is in the table. *)
Definition present (accessRulesMap : gmap string (list string))
    (method path : string) : Prop :=
  ∃ paths, accessRulesMap !! method = Some paths ∧ path ∈ paths.

(** The rule a line stands for, if it has exactly two fields. *)
Definition parseRule (rule : string) : option (string * string) :=
  match strings_Split rule accessRuleStringDelimiter with
  | [method; path] => Some (method, path)
  | _ => None
  end.

(** The paths the lines give for a method, in the order of the lines. *)
Definition pathsFor (method : string) (accessRulesList : list string) : list string :=
  omap (fun rule =>
          match parseRule rule with
          | Some (m, path) => if decide (m = method) then Some path else None
          | None => None
          end) accessRulesList.

(** The group of a method in the compiled table. *)
Definition groupOf (method : string) (accessRulesList : list string)
  : option (list string) :=
  match pathsFor method accessRulesList with
  | [] => None
  | paths => Some (sort_Strings paths)
  end.

(** The outbound request the handler builds for an inbound one. *)
Definition outbound (r : Request) : OutRequest :=
  {| outMethod := Method r;
     outURL := "http://unix" +:+ URL_Path r;
     outBody := Body r;
     outDeadline := Some 5 |}.

(** The world used in the examples: request construction never fails, and
    the target socket does not exist, so every dial fails. *)
Definition neverFails : string → string → bool := fun _ _ => false.
Definition noTarget : OutRequest → Response + DoError := fun _ => inr DialFailed.

(** [strings.Join(fields, sep)] for a separator of one byte. *)
Fixpoint strings_Join (fields : list string) (sep : ascii) : string :=
  match fields with
  | [] => EmptyString
  | field :: rest =>
      match rest with
      | [] => field
      | _ :: _ => field +:+ String sep (strings_Join rest sep)
      end
  end.

(** The text of the rule line for a method and a path. *)
Definition ruleLine (method path : string) : string :=
  method +:+ String accessRuleStringDelimiter path.

(** The end of a line in a rule file: a newline, or a carriage return and
    a newline. *)
Definition endOfLine (crlf : bool) : string :=
  if crlf then String "013"%char (String "010"%char EmptyString)
  else String "010"%char EmptyString.

(** A line that [readFileLines] returns as it stands in the file: not
    empty, without a newline byte, not ending in a carriage return, and,
    with the end of line after it, within the scanner's buffer. *)
Definition plainLine (crlf : bool) (line : string) : Prop :=
  0 < String.length line ∧
  strings_Count line "010"%char = 0 ∧
  dropCR line = line ∧
  String.length line + String.length (endOfLine crlf) ≤ bufio_MaxScanTokenSize.

(** The bytes of a file made of these lines, each followed by the end of
    line. *)
Definition fileText (crlf : bool) (lines : list string) : string :=
  foldr (fun line text => line +:+ endOfLine crlf +:+ text) EmptyString lines.

(** [n] copies of one byte. *)
Definition repeatByte (n : nat) (c : ascii) : string :=
  string_of_list_ascii (replicate n c).

(** The methods the lines give for a path, in the order of the lines. *)
Definition methodsFor (path : string) (accessRulesList : list string) : list string :=
  omap (fun rule =>
          match parseRule rule with
          | Some (method, p) => if decide (p = path) then Some method else None
          | None => None
          end) accessRulesList.

(** The pair (method, path) is in a path-keyed table. *)
Definition listed (accessRulesMap : gmap string (list string))
    (method path : string) : Prop :=
  ∃ methods, accessRulesMap !! path = Some methods ∧ method ∈ methods.

(** * Properties of the library pieces *)

Lemma strings_Split_length s sep :
  length (strings_Split s sep) = S (strings_Count s sep).
Proof.
  induction s as [|c rest IH]; simpl; [done|].
  destruct (Ascii.eqb c sep); simpl; [by rewrite IH|].
  destruct (strings_Split rest sep) as [|field fields]; simpl in *; [discriminate|done].
Qed.

(** Go's loop cuts at the first separator: a field without separator, the
    separator, and the split of what follows. *)
Lemma strings_Split_no_sep s sep :
  strings_Count s sep = 0 → strings_Split s sep = [s].
Proof.
  induction s as [|c rest IH]; simpl; [done|].
  destruct (Ascii.eqb c sep); simpl; [discriminate|].
  intros Hrest. by rewrite IH.
Qed.

Lemma strings_Split_cut field s sep :
  strings_Count field sep = 0 →
  strings_Split (field +:+ String sep s) sep = field :: strings_Split s sep.
Proof.
  induction field as [|c rest IH]; simpl.
  - by rewrite Ascii.eqb_refl.
  - destruct (Ascii.eqb c sep); simpl; [discriminate|].
    intros Hrest. by rewrite IH.
Qed.

Lemma sort_Strings_sorted a : StronglySorted String.le (sort_Strings a).
Proof. apply StronglySorted_merge_sort; apply _. Qed.

Lemma sort_Strings_Permutation a : sort_Strings a ≡ₚ a.
Proof. apply merge_sort_Permutation. Qed.

Lemma sort_Strings_canonical a b :
  StronglySorted String.le b → b ≡ₚ a → sort_Strings a = b.
Proof.
  intros Hb Hab. apply (StronglySorted_unique String.le);
    [apply sort_Strings_sorted|done|].
  by rewrite sort_Strings_Permutation.
Qed.

Lemma elem_of_sort_Strings x a : x ∈ sort_Strings a ↔ x ∈ a.
Proof. by rewrite sort_Strings_Permutation. Qed.

Lemma StronglySorted_lookup_le (a : list string) i j y z :
  StronglySorted String.le a → i ≤ j → a !! i = Some y → a !! j = Some z →
  String.le y z.
Proof.
  intros Ha. revert i j. induction Ha as [|x a Ha IH Hx]; intros i j Hij Hi Hj.
  { by rewrite lookup_nil in Hi. }
  destruct i as [|i], j as [|j]; simplify_eq/=; [done| |lia|].
  - rewrite Forall_forall in Hx. apply Hx. by eapply list_elem_of_lookup_2.
  - apply (IH i j); [lia|done..].
Qed.

Section Search.
Variable f : nat → bool.

Lemma search_loop_bounds turns i j :
  i ≤ j → i ≤ search_loop turns f i j ≤ j.
Proof.
  revert i j. induction turns as [|turns IH]; intros i j Hij; cbn [search_loop]; [lia|].
  case_decide; [|lia].
  assert (i ≤ (i + j) / 2 < j) as Hh.
  { split; [apply Nat.div_le_lower_bound|apply Nat.Div0.div_lt_upper_bound]; lia. }
  destruct (f ((i + j) / 2)); cbn [negb].
  - specialize (IH i ((i + j) / 2)). lia.
  - specialize (IH ((i + j) / 2 + 1) j). lia.
Qed.

(** [j - i] turns are enough: more turns change nothing. *)
Lemma search_loop_turns turns turns' i j :
  j - i ≤ turns → j - i ≤ turns' →
  search_loop turns f i j = search_loop turns' f i j.
Proof.
  revert turns' i j. induction turns as [|turns IH]; intros [|turns'] i j Ht Ht'; cbn [search_loop];
    try done; try (case_decide; [lia|done]).
  case_decide; [|done].
  assert (i ≤ (i + j) / 2 < j) as Hh.
  { split; [apply Nat.div_le_lower_bound|apply Nat.Div0.div_lt_upper_bound]; lia. }
  destruct (f ((i + j) / 2)); cbn [negb]; apply IH; lia.
Qed.

(** The loop invariant of [sort.Search], for a predicate that is monotone
    below [n]: [f] is false before [i] and true from [j] on. *)
Lemma search_loop_spec n turns i j :
  (∀ a b, a ≤ b → b < n → f a = true → f b = true) →
  i ≤ j → j ≤ n → j - i ≤ turns →
  (∀ k, k < i → f k = false) →
  (∀ k, j ≤ k → k < n → f k = true) →
  (∀ k, k < search_loop turns f i j → f k = false) ∧
  (∀ k, search_loop turns f i j ≤ k → k < n → f k = true).
Proof.
  intros Hmono. revert i j.
  induction turns as [|turns IH]; intros i j Hij Hjn Ht Hlo Hhi; cbn [search_loop].
  { assert (i = j) as -> by lia. done. }
  case_decide; [|assert (i = j) as -> by lia; done].
  assert (i ≤ (i + j) / 2 < j) as Hh.
  { split; [apply Nat.div_le_lower_bound|apply Nat.Div0.div_lt_upper_bound]; lia. }
  destruct (f ((i + j) / 2)) eqn:Hf; cbn [negb].
  - apply IH; [lia..|done|].
    intros k Hk Hkn. by apply (Hmono ((i + j) / 2)).
  - apply IH; [lia..| |done].
    intros k Hk. destruct (f k) eqn:Hfk; [|done].
    rewrite <-Hf. symmetry. apply (Hmono k); [lia..|done].
Qed.

Lemma sort_Search_le n : sort_Search n f ≤ n.
Proof. unfold sort_Search. pose proof (search_loop_bounds n 0 n). lia. Qed.

Lemma sort_Search_spec n :
  (∀ a b, a ≤ b → b < n → f a = true → f b = true) →
  (∀ k, k < sort_Search n f → f k = false) ∧
  (∀ k, sort_Search n f ≤ k → k < n → f k = true).
Proof.
  intros Hmono. apply (search_loop_spec n); [done|lia..| |]; intros; lia.
Qed.
End Search.

Lemma sort_SearchStrings_le a x : sort_SearchStrings a x ≤ length a.
Proof. apply sort_Search_le. Qed.

(** On a sorted slice the search lands on [x] exactly when [x] occurs. *)
Lemma sort_SearchStrings_found a x :
  StronglySorted String.le a →
  a !! sort_SearchStrings a x = Some x ↔ x ∈ a.
Proof.
  intros Ha. split; [apply list_elem_of_lookup_2|].
  intros [k Hk]%list_elem_of_lookup_1.
  set (f := fun i => match a !! i with
                     | Some y => bool_decide (String.le x y)
                     | None => false
                     end).
  destruct (sort_Search_spec f (length a)) as [Hlo Hhi].
  { intros i j Hij Hj. unfold f.
    destruct (a !! i) as [y|] eqn:Hi; [|done].
    destruct (lookup_lt_is_Some_2 a j Hj) as [z Hz]. rewrite Hz.
    rewrite !bool_decide_eq_true. intros Hxy. etrans; [done|].
    by apply (StronglySorted_lookup_le a i j y z). }
  change (sort_Search (length a) f) with (sort_SearchStrings a x) in Hlo, Hhi.
  pose proof (lookup_lt_Some _ _ _ Hk) as Hkn.
  assert (sort_SearchStrings a x ≤ k) as Hrk.
  { destruct (decide (sort_SearchStrings a x ≤ k)); [done|].
    specialize (Hlo k ltac:(lia)). unfold f in Hlo. rewrite Hk in Hlo.
    by rewrite bool_decide_eq_false in Hlo. }
  destruct (lookup_lt_is_Some_2 a (sort_SearchStrings a x) ltac:(lia)) as [y Hy].
  rewrite Hy. f_equal. apply (anti_symm String.le).
  - by apply (StronglySorted_lookup_le a (sort_SearchStrings a x) k y x).
  - specialize (Hhi _ (Nat.le_refl _) ltac:(lia)). unfold f in Hhi.
    rewrite Hy in Hhi. by rewrite bool_decide_eq_true in Hhi.
Qed.

(** * The authorizer *)

(** The index expression of the decision is always in range: the decision
    is the comparison of the slot the search points at, if any, with the
    path. *)
Lemma authorize_lookup t method path paths :
  t !! method = Some paths →
  authorize t method path =
    Ok (bool_decide (paths !! sort_SearchStrings paths path = Some path)).
Proof.
  intros Hm. unfold authorize. rewrite Hm. cbn zeta.
  pose proof (sort_SearchStrings_le paths path) as Hle.
  case_decide as Hlen.
  - rewrite bool_decide_eq_false_2; [done|].
    rewrite Hlen, lookup_ge_None_2; [done|lia].
  - destruct (lookup_lt_is_Some_2 paths (sort_SearchStrings paths path)) as [y Hy]; [lia|].
    unfold index. rewrite Hy. cbn.
    case_decide as Hne; case_bool_decide; naive_solver.
Qed.

Lemma authorize_None t method path :
  t !! method = None → authorize t method path = Ok false.
Proof. intros Hm. unfold authorize. by rewrite Hm. Qed.

Lemma authorize_total t method path : ∃ b, authorize t method path = Ok b.
Proof.
  destruct (t !! method) as [paths|] eqn:Hm.
  - rewrite (authorize_lookup _ _ _ _ Hm). eauto.
  - rewrite (authorize_None _ _ _ Hm). eauto.
Qed.

Lemma authorize_sorted t method path paths :
  t !! method = Some paths → StronglySorted String.le paths →
  authorize t method path = Ok (bool_decide (path ∈ paths)).
Proof.
  intros Hm Hs. rewrite (authorize_lookup _ _ _ _ Hm). f_equal.
  apply bool_decide_ext. by apply sort_SearchStrings_found.
Qed.

Lemma authorize_true_present t method path :
  authorize t method path = Ok true → present t method path.
Proof.
  destruct (t !! method) as [paths|] eqn:Hm.
  - rewrite (authorize_lookup _ _ _ _ Hm). intros [= Hb%bool_decide_eq_true].
    exists paths. split; [done|]. by eapply list_elem_of_lookup_2.
  - by rewrite (authorize_None _ _ _ Hm).
Qed.

Lemma absent_denied t method path :
  ¬ present t method path → authorize t method path = Ok false.
Proof.
  intros Hn. destruct (authorize_total t method path) as [[] Ha]; [|done].
  by apply authorize_true_present in Ha.
Qed.

(** * The compiled table *)

Lemma parseRule_None rule :
  length (strings_Split rule accessRuleStringDelimiter) ≠ 2 → parseRule rule = None.
Proof.
  unfold parseRule.
  destruct (strings_Split _ _) as [|a [|b [|c fields]]]; simpl; [done..|lia|done].
Qed.

Lemma addRule_parse t rule :
  addRule t rule =
    Ok (match parseRule rule with
        | Some (method, path) => <[method := default [] (t !! method) ++ [path]]> t
        | None => t
        end).
Proof.
  unfold addRule, parseRule. cbn zeta.
  destruct (strings_Split _ _) as [|method [|path [|c fields]]]; simpl; [done..| |done].
  destruct (t !! method) as [paths|] eqn:Hm; cbn.
  - by rewrite Hm.
  - by rewrite lookup_insert_eq, insert_insert_eq.
Qed.

Lemma addRule_skip t rule :
  length (strings_Split rule accessRuleStringDelimiter) ≠ 2 → addRule t rule = Ok t.
Proof. intros Hn. by rewrite addRule_parse, parseRule_None. Qed.

(** The first loop never panics, and appends to each key the paths of its
    lines, creating the key at its first line. *)
Lemma rangeRules_lookup accessRulesList t :
  ∃ t', rangeRules accessRulesList t = Ok t' ∧
    ∀ method, t' !! method =
      match t !! method, pathsFor method accessRulesList with
      | None, [] => None
      | old, paths => Some (default [] old ++ paths)
      end.
Proof.
  revert t. induction accessRulesList as [|rule rest IH]; intros t; cbn [rangeRules].
  { exists t. split; [done|]. intros method. cbn.
    destruct (t !! method); cbn; by rewrite ?app_nil_r. }
  rewrite addRule_parse. cbn [mbind go_bind].
  destruct (IH (match parseRule rule with
                | Some (method, path) => <[method := default [] (t !! method) ++ [path]]> t
                | None => t
                end)) as (t' & -> & Ht').
  exists t'. split; [done|]. intros method. rewrite Ht'. unfold pathsFor. cbn [omap list_omap].
  destruct (parseRule rule) as [[m path]|]; [|done].
  case_decide as Hm.
  - subst m. rewrite lookup_insert_eq. cbn.
    destruct (t !! method); cbn; by rewrite <-?app_assoc.
  - by rewrite lookup_insert_ne.
Qed.

Lemma determineAccessRules_lookup accessRulesList :
  ∃ t, determineAccessRules accessRulesList = Ok t ∧
    ∀ method, t !! method = groupOf method accessRulesList.
Proof.
  unfold determineAccessRules.
  destruct (rangeRules_lookup accessRulesList ∅) as (t & -> & Ht).
  eexists. split; [done|]. intros method.
  rewrite lookup_fmap, Ht, lookup_empty. unfold groupOf.
  by destruct (pathsFor method accessRulesList).
Qed.

Lemma determineAccessRules_sorted accessRulesList t method paths :
  determineAccessRules accessRulesList = Ok t → t !! method = Some paths →
  StronglySorted String.le paths ∧ paths ≡ₚ pathsFor method accessRulesList.
Proof.
  intros Ht Hm.
  destruct (determineAccessRules_lookup accessRulesList) as (t' & Ht' & Hlookup).
  rewrite Ht in Ht'. injection Ht' as <-. rewrite Hlookup in Hm. unfold groupOf in Hm.
  destruct (pathsFor method accessRulesList) as [|path rest]; [done|].
  injection Hm as <-. split; [apply sort_Strings_sorted|apply sort_Strings_Permutation].
Qed.

Lemma present_compiled accessRulesList t method path :
  determineAccessRules accessRulesList = Ok t →
  present t method path ↔ path ∈ pathsFor method accessRulesList.
Proof.
  intros Ht. split.
  - intros (paths & Hm & Hin).
    destruct (determineAccessRules_sorted _ _ _ _ Ht Hm) as [_ Hperm]. by rewrite <-Hperm.
  - intros Hin.
    destruct (determineAccessRules_lookup accessRulesList) as (t' & Ht' & Hlookup).
    rewrite Ht in Ht'. injection Ht' as <-.
    exists (sort_Strings (pathsFor method accessRulesList)). split.
    + rewrite Hlookup. unfold groupOf.
      destruct (pathsFor method accessRulesList); [by apply elem_of_nil in Hin|done].
    + by apply elem_of_sort_Strings.
Qed.

(** On a compiled table the decision is membership of the pair. *)
Lemma authorize_compiled accessRulesList t method path :
  determineAccessRules accessRulesList = Ok t →
  authorize t method path = Ok (bool_decide (path ∈ pathsFor method accessRulesList)).
Proof.
  intros Ht.
  destruct (t !! method) as [paths|] eqn:Hm.
  - destruct (determineAccessRules_sorted _ _ _ _ Ht Hm) as [Hsorted Hperm].
    rewrite (authorize_sorted _ _ _ _ Hm Hsorted). f_equal.
    apply bool_decide_ext. by rewrite Hperm.
  - rewrite (authorize_None _ _ _ Hm). f_equal. symmetry.
    apply bool_decide_eq_false_2. intros Hin.
    apply (present_compiled _ _ _ _ Ht) in Hin as (paths & Hm' & _). congruence.
Qed.

Lemma elem_of_pathsFor method path accessRulesList :
  path ∈ pathsFor method accessRulesList ↔
  ∃ rule, rule ∈ accessRulesList ∧ parseRule rule = Some (method, path).
Proof.
  unfold pathsFor. rewrite list_elem_of_omap. split.
  - intros (rule & Hin & Hrule). exists rule. split; [done|].
    destruct (parseRule rule) as [[m q]|]; [|done]. case_decide; naive_solver.
  - intros (rule & Hin & Hrule). exists rule. split; [done|].
    rewrite Hrule. by rewrite decide_True.
Qed.

Lemma rangeRules_app before after t :
  rangeRules (before ++ after) t = t' ← rangeRules before t; rangeRules after t'.
Proof.
  revert t. induction before as [|rule before IH]; intros t; cbn [rangeRules app]; [done|].
  rewrite addRule_parse. cbn [mbind go_bind]. apply IH.
Qed.

Lemma determineAccessRules_total accessRulesList :
  ∃ t, determineAccessRules accessRulesList = Ok t.
Proof. destruct (determineAccessRules_lookup accessRulesList) as (t & Ht & _). eauto. Qed.

Lemma sort_Strings_Permutation_eq a b : a ≡ₚ b → sort_Strings a = sort_Strings b.
Proof.
  intros Hab. apply sort_Strings_canonical; [apply sort_Strings_sorted|].
  by rewrite sort_Strings_Permutation.
Qed.

Lemma groupOf_Permutation method lines lines' :
  lines ≡ₚ lines' → groupOf method lines = groupOf method lines'.
Proof.
  intros Hperm. unfold groupOf.
  assert (pathsFor method lines ≡ₚ pathsFor method lines') as Hp.
  { unfold pathsFor. by rewrite Hperm. }
  destruct (pathsFor method lines) as [|p ps], (pathsFor method lines') as [|q qs].
  - done.
  - by apply Permutation_nil_cons in Hp.
  - symmetry in Hp. by apply Permutation_nil_cons in Hp.
  - f_equal. by apply sort_Strings_Permutation_eq.
Qed.

(** The compiled table itself does not depend on the order of the lines. *)
Lemma determineAccessRules_Permutation lines lines' :
  lines ≡ₚ lines' → determineAccessRules lines = determineAccessRules lines'.
Proof.
  intros Hperm.
  destruct (determineAccessRules_lookup lines) as (t & -> & Ht).
  destruct (determineAccessRules_lookup lines') as (t' & -> & Ht').
  f_equal. apply map_eq. intros method. rewrite Ht, Ht'. by apply groupOf_Permutation.
Qed.

(** What the line [~] adds: nothing under any method but the empty one,
    which no request the handler authorizes can carry. *)
Lemma tilde_line_only_adds_empty_rule before after t t' method :
  determineAccessRules (before ++ "~" :: after) = Ok t →
  determineAccessRules (before ++ after) = Ok t' →
  method ≠ "" → t !! method = t' !! method.
Proof.
  intros Ht Ht' Hm.
  destruct (determineAccessRules_lookup (before ++ "~" :: after)) as (t1 & Ht1 & H1).
  destruct (determineAccessRules_lookup (before ++ after)) as (t2 & Ht2 & H2).
  rewrite Ht in Ht1. injection Ht1 as <-. rewrite Ht' in Ht2. injection Ht2 as <-.
  rewrite H1, H2. unfold groupOf, pathsFor. rewrite !omap_app. cbn [omap list_omap].
  change (parseRule "~") with (Some ("", "")). cbn beta iota.
  by rewrite decide_False by congruence.
Qed.

(** * The dispatcher, path by path *)

Lemma supportedMethod_false method :
  method ∉ ["GET"; "POST"; "DELETE"; "PATCH"; "PUT"] → supportedMethod method = false.
Proof. intros Hm. by apply bool_decide_eq_false. Qed.

Ltac handler_steps :=
  unfold run, obtainRequestHandler, client_Do, io_WriteString, io_Copy, emit, lift,
    http_NewRequest, WithContext;
  cbn [mbind mret Handler_bind Handler_ret negb app].

Section Paths.
Variable newRequestFails : string → string → bool.
Variable targetDo : OutRequest → Response + DoError.
Variable t : gmap string (list string).
Variable r : Request.

Local Abbreviation handle := (run (obtainRequestHandler newRequestFails targetDo t r)).
Local Abbreviation url := ("http://unix" +:+ URL_Path r).

Lemma handle_unsupported :
  supportedMethod (Method r) = false → handle = Ok [EvWrite badRequestString].
Proof. intros Hm. handler_steps. by rewrite Hm. Qed.

Lemma handle_denied :
  supportedMethod (Method r) = true →
  authorize t (Method r) (URL_Path r) = Ok false →
  handle = Ok [EvWrite unauthorizedMsgString].
Proof. intros Hm Ha. handler_steps. by rewrite Hm, Ha. Qed.

Lemma handle_construction_failure :
  supportedMethod (Method r) = true →
  authorize t (Method r) (URL_Path r) = Ok true →
  newRequestFails (Method r) url = true →
  handle = Ok [EvWrite internalErrorString].
Proof. intros Hm Ha Hn. handler_steps. by rewrite Hm, Ha, Hn. Qed.

Lemma handle_relay_error e :
  supportedMethod (Method r) = true →
  authorize t (Method r) (URL_Path r) = Ok true →
  newRequestFails (Method r) url = false →
  targetDo (outbound r) = inr e →
  handle = Ok [EvDo (outbound r); EvWrite requestTimeoutString].
Proof.
  intros Hm Ha Hn Hd. handler_steps. rewrite Hm, Ha, Hn. cbn.
  fold (outbound r). by rewrite Hd.
Qed.

Lemma handle_relayed response :
  supportedMethod (Method r) = true →
  authorize t (Method r) (URL_Path r) = Ok true →
  newRequestFails (Method r) url = false →
  targetDo (outbound r) = inl response →
  handle = Ok [EvDo (outbound r); EvWrite (respBody response)].
Proof.
  intros Hm Ha Hn Hd. handler_steps. rewrite Hm, Ha, Hn. cbn.
  fold (outbound r). by rewrite Hd.
Qed.

(** Every call ends normally, having written once and relayed at most
    once, and then only the outbound request of [r]. *)
Lemma handle_cases :
  ∃ trace, handle = Ok trace ∧ length (writes trace) = 1 ∧
    (relayCalls trace = [] ∨ relayCalls trace = [outbound r]).
Proof.
  destruct (supportedMethod (Method r)) eqn:Hm;
    [|rewrite (handle_unsupported Hm); eauto].
  destruct (authorize_total t (Method r) (URL_Path r)) as [[] Ha];
    [|rewrite (handle_denied Hm Ha); eauto].
  destruct (newRequestFails (Method r) url) eqn:Hn;
    [rewrite (handle_construction_failure Hm Ha Hn); eauto|].
  destruct (targetDo (outbound r)) as [response|e] eqn:Hd.
  - rewrite (handle_relayed response Hm Ha Hn Hd). eauto.
  - rewrite (handle_relay_error e Hm Ha Hn Hd). eauto.
Qed.
End Paths.

(** * The program on small inputs *)

Example split_two_fields :
  strings_Split "GET~/status" accessRuleStringDelimiter = ["GET"; "/status"].
Proof. reflexivity. Qed.

Example split_one_field : strings_Split "GET" accessRuleStringDelimiter = ["GET"].
Proof. reflexivity. Qed.

Example split_three_fields :
  strings_Split "GET~/a~extra" accessRuleStringDelimiter = ["GET"; "/a"; "extra"].
Proof. reflexivity. Qed.

Example search_first_of_equals : sort_SearchStrings ["/a"; "/b"; "/b"; "/c"] "/b" = 1.
Proof. reflexivity. Qed.

Example search_insertion_index : sort_SearchStrings ["/a"; "/c"] "/b" = 1.
Proof. reflexivity. Qed.

Example search_past_the_end : sort_SearchStrings ["/a"; "/c"] "/d" = 2.
Proof. reflexivity. Qed.

Example compile_groups_and_sorts :
  determineAccessRules ["GET~/b"; "POST~/x"; "GET"; "GET~/a"]
  = Ok {[ "GET" := ["/a"; "/b"]; "POST" := ["/x"] ]}.
Proof. by vm_compute. Qed.

(** Rules [GET~/status], a target that answers [pong]. *)
Example scenario_relayed :
  serve neverFails (fun _ => inl {| respBody := "pong" |}) ["GET~/status"]
    {| Method := "GET"; URL_Path := "/status"; Body := "" |}
  = Ok [EvDo {| outMethod := "GET"; outURL := "http://unix/status"; outBody := "";
                outDeadline := Some 5 |};
        EvWrite "pong"].
Proof. reflexivity. Qed.

Example scenario_other_path_denied :
  serve neverFails (fun _ => inl {| respBody := "pong" |}) ["GET~/status"]
    {| Method := "GET"; URL_Path := "/other"; Body := "" |}
  = Ok [EvWrite unauthorizedMsgString].
Proof. reflexivity. Qed.

Example scenario_other_method_denied :
  serve neverFails (fun _ => inl {| respBody := "pong" |}) ["GET~/status"]
    {| Method := "POST"; URL_Path := "/status"; Body := "" |}
  = Ok [EvWrite unauthorizedMsgString].
Proof. reflexivity. Qed.

Example scenario_bad_method :
  serve neverFails (fun _ => inl {| respBody := "pong" |}) ["GET~/status"]
    {| Method := "OPTIONS"; URL_Path := "/status"; Body := "" |}
  = Ok [EvWrite badRequestString].
Proof. reflexivity. Qed.

Example scenario_no_target_socket :
  serve neverFails noTarget ["GET~/status"]
    {| Method := "GET"; URL_Path := "/status"; Body := "" |}
  = Ok [EvDo {| outMethod := "GET"; outURL := "http://unix/status"; outBody := "";
                outDeadline := Some 5 |};
        EvWrite requestTimeoutString].
Proof. reflexivity. Qed.

(** * The claims *)

(** C1, as stated, fails on a request with an unsupported method: its pair
    is not in the table, and the handler writes the bad-request body, not
    the unauthorized one. *)
Lemma C1_unsupported_method_gets_bad_request :
  determineAccessRules ["GET~/status"] = Ok {[ "GET" := ["/status"] ]} ∧
  ¬ present {[ "GET" := ["/status"] ]} "OPTIONS" "/status" ∧
  run (obtainRequestHandler neverFails noTarget {[ "GET" := ["/status"] ]}
         {| Method := "OPTIONS"; URL_Path := "/status"; Body := "" |})
    = Ok [EvWrite badRequestString] ∧
  badRequestString ≠ unauthorizedMsgString.
Proof.
  split; [by vm_compute|]. split; [|split; [by vm_compute|done]].
  intros (paths & Hm & _). by rewrite lookup_singleton_ne in Hm.
Qed.

(** C1, amended: for every rule table (compiled or not) and every inbound
    request whose (method, path) pair is not present in the table, the
    handler ends after a single write and never calls the relay; what it
    writes is the unauthorized body when the method is one of the five
    supported ones, and the bad-request body otherwise. *)
Theorem C1_absent_pair_never_relayed newRequestFails targetDo t r :
  ¬ present t (Method r) (URL_Path r) →
  ∃ trace, run (obtainRequestHandler newRequestFails targetDo t r) = Ok trace ∧
    relayCalls trace = [] ∧
    trace = [EvWrite (if supportedMethod (Method r) then unauthorizedMsgString
                      else badRequestString)].
Proof.
  intros Habsent. destruct (supportedMethod (Method r)) eqn:Hm.
  - rewrite handle_denied; [eauto|done|by apply absent_denied].
  - rewrite handle_unsupported; [eauto|done].
Qed.

Lemma C1_absent_pair_never_relayed_witness :
  ∃ trace,
    run (obtainRequestHandler neverFails noTarget {[ "GET" := ["/status"] ]}
           {| Method := "GET"; URL_Path := "/other"; Body := "" |}) = Ok trace ∧
    relayCalls trace = [] ∧
    trace = [EvWrite unauthorizedMsgString].
Proof.
  apply (C1_absent_pair_never_relayed neverFails noTarget {[ "GET" := ["/status"] ]}
           {| Method := "GET"; URL_Path := "/other"; Body := "" |}).
  intros (paths & Hm & Hin). cbn in Hm, Hin.
  rewrite lookup_singleton_eq in Hm. injection Hm as <-.
  apply list_elem_of_singleton in Hin. discriminate.
Defined.

(** C2: the authorizer answers deny when the method is not a key of the
    table; otherwise it answers allow exactly when the slot that the binary
    search points at holds the path (an index past the end, or at another
    string, is a deny); and on sorted path lists that is exactly when the
    path occurs in the method's list. *)
Theorem C2_authorize_is_exact_search t method path :
  (∀ paths, t !! method = Some paths → StronglySorted String.le paths) →
  authorize t method path =
    Ok (match t !! method with
        | None => false
        | Some paths => bool_decide (paths !! sort_SearchStrings paths path = Some path)
        end) ∧
  (authorize t method path = Ok true ↔ present t method path).
Proof.
  intros Hsorted. destruct (t !! method) as [paths|] eqn:Hm.
  - split; [by apply authorize_lookup|].
    split; [apply authorize_true_present|].
    intros (paths' & Hm' & Hin). rewrite Hm in Hm'. injection Hm' as <-.
    rewrite (authorize_sorted _ _ _ _ Hm (Hsorted _ eq_refl)).
    by rewrite bool_decide_eq_true_2.
  - split; [by apply authorize_None|].
    split; [apply authorize_true_present|].
    intros (paths' & Hm' & _). congruence.
Qed.

Lemma C2_authorize_is_exact_search_witness :
  authorize {[ "GET" := ["/a"; "/b"; "/c"] ]} "GET" "/b" =
    Ok (match ({[ "GET" := ["/a"; "/b"; "/c"] ]} : gmap string (list string)) !! "GET" with
        | None => false
        | Some paths => bool_decide (paths !! sort_SearchStrings paths "/b" = Some "/b")
        end) ∧
  (authorize {[ "GET" := ["/a"; "/b"; "/c"] ]} "GET" "/b" = Ok true ↔
   present {[ "GET" := ["/a"; "/b"; "/c"] ]} "GET" "/b").
Proof.
  apply (C2_authorize_is_exact_search {[ "GET" := ["/a"; "/b"; "/c"] ]} "GET" "/b").
  intros paths Hm. rewrite lookup_singleton_eq in Hm. injection Hm as <-.
  repeat constructor.
Defined.

(** C3, as stated, fails: compiling [GET~/a] twice leaves both copies in
    the list of GET, which has size 2 and is not strictly sorted. *)
Lemma C3_duplicate_lines_kept :
  determineAccessRules ["GET~/a"; "GET~/a"] = Ok {[ "GET" := ["/a"; "/a"] ]}.
Proof. by vm_compute. Qed.

(** C3, amended: for every input sequence of rule lines, the compiled table
    has, for each method key, a path list sorted lexicographically in
    non-decreasing order that holds one entry for each two-field line of
    that method, duplicates included (so compiling [GET~/a] twice gives a
    list of size 2). *)
Theorem C3_groups_sorted_duplicates_kept accessRulesList t method paths :
  determineAccessRules accessRulesList = Ok t →
  t !! method = Some paths →
  StronglySorted String.le paths ∧
  paths ≡ₚ pathsFor method accessRulesList ∧
  length paths = length (pathsFor method accessRulesList).
Proof.
  intros Ht Hm. destruct (determineAccessRules_sorted _ _ _ _ Ht Hm) as [Hs Hp].
  split; [done|]. split; [done|]. by rewrite Hp.
Qed.

Lemma C3_groups_sorted_duplicates_kept_witness :
  StronglySorted String.le ["/a"; "/a"; "/b"] ∧
  ["/a"; "/a"; "/b"] ≡ₚ pathsFor "GET" ["GET~/b"; "GET~/a"; "POST~/c"; "GET~/a"] ∧
  length ["/a"; "/a"; "/b"] = length (pathsFor "GET" ["GET~/b"; "GET~/a"; "POST~/c"; "GET~/a"]).
Proof.
  apply (C3_groups_sorted_duplicates_kept
           ["GET~/b"; "GET~/a"; "POST~/c"; "GET~/a"]
           {[ "GET" := ["/a"; "/a"; "/b"]; "POST" := ["/c"] ]} "GET").
  - vm_compute. reflexivity.
  - vm_compute. reflexivity.
Defined.

(** C4, as stated, fails on the line [~]: it splits into two fields, both
    empty, and puts the empty path under the empty method. *)
Lemma C4_tilde_line_is_compiled :
  strings_Split "~" accessRuleStringDelimiter = [""; ""] ∧
  determineAccessRules ["~"] = Ok {[ "" := [""] ]} ∧
  determineAccessRules [] = Ok ∅.
Proof. by vm_compute. Qed.

(** C4, amended: for every input sequence of rule lines, a line that does
    not split on [~] into exactly two fields is silently skipped, and in
    particular each of the malformed lines [GET] and [GET~/a~extra]
    contributes nothing to the compiled table. (The line [~] has two
    fields; see [tilde_line_only_adds_empty_rule] for what it adds.) *)
Theorem C4_malformed_lines_skipped before rule after :
  rule = "GET" ∨ rule = "GET~/a~extra" ∨
    length (strings_Split rule accessRuleStringDelimiter) ≠ 2 →
  determineAccessRules (before ++ rule :: after) = determineAccessRules (before ++ after).
Proof.
  intros Hrule.
  assert (length (strings_Split rule accessRuleStringDelimiter) ≠ 2) as Hlen.
  { destruct Hrule as [->|[->|Hlen]]; [by vm_compute..|done]. }
  unfold determineAccessRules. rewrite !rangeRules_app.
  destruct (rangeRules before ∅) as [t|]; [|done]. cbn [mbind go_bind rangeRules].
  by rewrite (addRule_skip _ _ Hlen).
Qed.

Lemma C4_malformed_lines_skipped_witness :
  determineAccessRules (["POST~/x"] ++ "GET~/a~extra" :: ["GET~/a"]) =
  determineAccessRules (["POST~/x"] ++ ["GET~/a"]).
Proof.
  apply (C4_malformed_lines_skipped ["POST~/x"] "GET~/a~extra" ["GET~/a"]).
  right. left. reflexivity.
Defined.

(** C5: whatever the rule table, a request whose method is outside
    GET, POST, DELETE, PATCH, PUT gets the bad-request body and nothing
    else happens: the table is not read and the relay is not called. *)
Theorem C5_unsupported_method_bad_request newRequestFails targetDo t r :
  Method r ∉ ["GET"; "POST"; "DELETE"; "PATCH"; "PUT"] →
  run (obtainRequestHandler newRequestFails targetDo t r) = Ok [EvWrite badRequestString] ∧
  ∀ accessRulesList,
    serve newRequestFails targetDo accessRulesList r = Ok [EvWrite badRequestString].
Proof.
  intros Hm%supportedMethod_false. split; [by apply handle_unsupported|].
  intros accessRulesList. unfold serve.
  destruct (determineAccessRules_total accessRulesList) as [t' ->]. cbn [mbind go_bind].
  by apply handle_unsupported.
Qed.

Lemma C5_unsupported_method_bad_request_witness :
  run (obtainRequestHandler neverFails noTarget {[ "OPTIONS" := ["/status"] ]}
         {| Method := "OPTIONS"; URL_Path := "/status"; Body := "" |})
    = Ok [EvWrite badRequestString] ∧
  ∀ accessRulesList,
    serve neverFails noTarget accessRulesList
      {| Method := "OPTIONS"; URL_Path := "/status"; Body := "" |}
    = Ok [EvWrite badRequestString].
Proof.
  apply (C5_unsupported_method_bad_request neverFails noTarget
           {[ "OPTIONS" := ["/status"] ]}
           {| Method := "OPTIONS"; URL_Path := "/status"; Body := "" |}).
  cbn [Method]. refine (bool_decide_eq_false_1 _ _). reflexivity.
Defined.




(** C7: for an allowed request (supported method, authorizer says allow)
    the handler never panics and writes exactly one body; when the
    outbound request cannot be built that body is the internal-error one
    and the relay is not called; when the relay call returns an error, of
    whatever kind, it is the request-timeout one. *)
Theorem C7_relay_failures_are_typed newRequestFails targetDo t r :
  supportedMethod (Method r) = true →
  authorize t (Method r) (URL_Path r) = Ok true →
  (∃ trace, run (obtainRequestHandler newRequestFails targetDo t r) = Ok trace ∧
     length (writes trace) = 1) ∧
  (newRequestFails (Method r) ("http://unix" +:+ URL_Path r) = true →
   run (obtainRequestHandler newRequestFails targetDo t r)
     = Ok [EvWrite internalErrorString]) ∧
  (∀ e : DoError,
     newRequestFails (Method r) ("http://unix" +:+ URL_Path r) = false →
     targetDo (outbound r) = inr e →
     run (obtainRequestHandler newRequestFails targetDo t r)
       = Ok [EvDo (outbound r); EvWrite requestTimeoutString]).
Proof.
  intros Hm Ha. split; [|split].
  - destruct (handle_cases newRequestFails targetDo t r) as (trace & Hrun & Hw & _). eauto.
  - intros Hn. by apply handle_construction_failure.
  - intros e Hn Hd. by apply (handle_relay_error _ _ _ _ e).
Qed.

Lemma C7_relay_failures_are_typed_witness :
  run (obtainRequestHandler neverFails noTarget {[ "GET" := ["/status"] ]}
         {| Method := "GET"; URL_Path := "/status"; Body := "" |})
  = Ok [EvDo (outbound {| Method := "GET"; URL_Path := "/status"; Body := "" |});
        EvWrite requestTimeoutString].
Proof.
  refine (proj2 (proj2 (C7_relay_failures_are_typed neverFails noTarget
            {[ "GET" := ["/status"] ]}
            {| Method := "GET"; URL_Path := "/status"; Body := "" |} _ _))
          DialFailed _ _); reflexivity.
Defined.

(** C8: compilation returns a table for every input; for the empty input
    it is the empty table, and under the empty table every request with a
    supported method, whatever its path, gets the unauthorized body and
    nothing else. *)
Theorem C8_compile_total_empty_denies newRequestFails targetDo accessRulesList r :
  supportedMethod (Method r) = true →
  (∃ t, determineAccessRules accessRulesList = Ok t) ∧
  determineAccessRules [] = Ok ∅ ∧
  authorize ∅ (Method r) (URL_Path r) = Ok false ∧
  run (obtainRequestHandler newRequestFails targetDo ∅ r)
    = Ok [EvWrite unauthorizedMsgString] ∧
  serve newRequestFails targetDo [] r = Ok [EvWrite unauthorizedMsgString].
Proof.
  intros Hm.
  assert (authorize ∅ (Method r) (URL_Path r) = Ok false) as Ha.
  { apply authorize_None, lookup_empty. }
  split; [apply determineAccessRules_total|]. split; [done|]. split; [done|].
  split; by apply handle_denied.
Qed.

Lemma C8_compile_total_empty_denies_witness :
  (∃ t, determineAccessRules ["GET~/a"; "~"; "GET"] = Ok t) ∧
  determineAccessRules [] = Ok ∅ ∧
  authorize ∅ "DELETE" "/users" = Ok false ∧
  run (obtainRequestHandler neverFails noTarget ∅
         {| Method := "DELETE"; URL_Path := "/users"; Body := "" |})
    = Ok [EvWrite unauthorizedMsgString] ∧
  serve neverFails noTarget []
    {| Method := "DELETE"; URL_Path := "/users"; Body := "" |}
    = Ok [EvWrite unauthorizedMsgString].
Proof.
  apply (C8_compile_total_empty_denies neverFails noTarget ["GET~/a"; "~"; "GET"]
           {| Method := "DELETE"; URL_Path := "/users"; Body := "" |}).
  reflexivity.
Defined.

(** C9: the tables compiled from a sequence of lines and from any
    permutation of it give the same answer to every (method, path) probe. *)
Theorem C9_line_order_is_irrelevant lines lines' :
  lines ≡ₚ lines' →
  ∃ t t', determineAccessRules lines = Ok t ∧ determineAccessRules lines' = Ok t' ∧
    ∀ method path, authorize t method path = authorize t' method path.
Proof.
  intros Hperm. destruct (determineAccessRules_total lines) as [t Ht].
  exists t, t. split; [done|]. split; [|done].
  by rewrite <-(determineAccessRules_Permutation _ _ Hperm).
Qed.

Lemma C9_line_order_is_irrelevant_witness :
  ∃ t t', determineAccessRules ["GET~/b"; "POST~/x"; "GET~/a"] = Ok t ∧
    determineAccessRules ["POST~/x"; "GET~/b"; "GET~/a"] = Ok t' ∧
    ∀ method path, authorize t method path = authorize t' method path.
Proof.
  apply (C9_line_order_is_irrelevant ["GET~/b"; "POST~/x"; "GET~/a"]
           ["POST~/x"; "GET~/b"; "GET~/a"]).
  apply perm_swap.
Defined.

(** C10: appending a line to the rule file never revokes an allowance:
    what the table of [lines] allows, the table of [lines ++ [x]] exists
    and allows too. *)
Theorem C10_appending_a_line_keeps_allowances lines x t method path :
  determineAccessRules lines = Ok t →
  authorize t method path = Ok true →
  ∃ t', determineAccessRules (lines ++ [x]) = Ok t' ∧
    authorize t' method path = Ok true.
Proof.
  intros Ht Ha. destruct (determineAccessRules_total (lines ++ [x])) as [t' Ht'].
  exists t'. split; [done|].
  rewrite (authorize_compiled _ _ _ _ Ht) in Ha. injection Ha as Hin%bool_decide_eq_true.
  rewrite (authorize_compiled _ _ _ _ Ht'). f_equal. apply bool_decide_eq_true_2.
  unfold pathsFor in *. rewrite omap_app. apply elem_of_app. by left.
Qed.

Lemma C10_appending_a_line_keeps_allowances_witness :
  ∃ t', determineAccessRules (["GET~/b"; "GET~/d"] ++ ["GET~/a"]) = Ok t' ∧
    authorize t' "GET" "/d" = Ok true.
Proof.
  apply (C10_appending_a_line_keeps_allowances ["GET~/b"; "GET~/d"] "GET~/a"
           {[ "GET" := ["/b"; "/d"] ]} "GET" "/d").
  - vm_compute. reflexivity.
  - vm_compute. reflexivity.
Defined.

(** * Further properties of the method-keyed program *)

Lemma strings_Split_Join s sep : strings_Join (strings_Split s sep) sep = s.
Proof.
  induction s as [|c rest IH]; [done|]. cbn [strings_Split].
  destruct (Ascii.eqb c sep) eqn:Hc.
  - apply Ascii.eqb_eq in Hc as ->. cbn [strings_Join].
    destruct (strings_Split rest sep) as [|field fields] eqn:Hs.
    + pose proof (strings_Split_length rest sep) as Hl. by rewrite Hs in Hl.
    + by rewrite IH.
  - destruct (strings_Split rest sep) as [|field fields]; [by subst|].
    cbn [strings_Join] in *. destruct fields; by subst.
Qed.

Lemma strings_Split_fields s sep :
  Forall (fun field => strings_Count field sep = 0) (strings_Split s sep).
Proof.
  induction s as [|c rest IH]; cbn [strings_Split]; [by repeat constructor|].
  destruct (Ascii.eqb c sep) eqn:Hc; [by constructor|].
  destruct (strings_Split rest sep) as [|field fields].
  - repeat constructor. cbn. by rewrite Hc.
  - inversion IH as [|? ? Hfield Hfields]; subst. constructor; [|done].
    cbn. by rewrite Hc.
Qed.

(** A line is a rule exactly when it is a method, one [~] and a path,
    with no other [~]. *)
Lemma parseRule_Some rule method path :
  parseRule rule = Some (method, path) ↔
  rule = ruleLine method path ∧
  strings_Count method accessRuleStringDelimiter = 0 ∧
  strings_Count path accessRuleStringDelimiter = 0.
Proof.
  unfold parseRule, ruleLine. split.
  - pose proof (strings_Split_Join rule accessRuleStringDelimiter) as Hj.
    pose proof (strings_Split_fields rule accessRuleStringDelimiter) as Hf.
    destruct (strings_Split rule accessRuleStringDelimiter) as [|m [|q [|c fields]]];
      try done.
    intros [= -> ->]. cbn [strings_Join] in Hj.
    inversion Hf as [|? ? Hm Hrest]; subst. inversion Hrest; subst. done.
  - intros (-> & Hm & Hp).
    by rewrite (strings_Split_cut _ _ _ Hm), (strings_Split_no_sep _ _ Hp).
Qed.

Lemma supportedMethod_no_delimiter method :
  supportedMethod method = true → strings_Count method accessRuleStringDelimiter = 0.
Proof.
  intros Hm%bool_decide_eq_true.
  repeat (apply elem_of_cons in Hm as [->|Hm]; [done|]). by apply elem_of_nil in Hm.
Qed.

Lemma authorize_rule_line accessRulesList t method path :
  determineAccessRules accessRulesList = Ok t →
  authorize t method path = Ok true ↔
  ruleLine method path ∈ accessRulesList ∧
  strings_Count method accessRuleStringDelimiter = 0 ∧
  strings_Count path accessRuleStringDelimiter = 0.
Proof.
  intros Ht. rewrite (authorize_compiled _ _ _ _ Ht). split.
  - intros [= Hin%bool_decide_eq_true].
    apply elem_of_pathsFor in Hin as (rule & Hin & Hrule).
    apply parseRule_Some in Hrule as (-> & Hm & Hp). done.
  - intros (Hin & Hm & Hp). f_equal. apply bool_decide_eq_true_2.
    apply elem_of_pathsFor. exists (ruleLine method path). split; [done|].
    by apply parseRule_Some.
Qed.

(** X1: on the compiled table, a probe (method, path) is allowed exactly
    when the rule file holds the line [method~path], byte for byte, and
    neither the method nor the path has a [~] in it. *)
Theorem allowed_iff_rule_line accessRulesList t method path :
  determineAccessRules accessRulesList = Ok t →
  authorize t method path = Ok true ↔
  ruleLine method path ∈ accessRulesList ∧
  strings_Count method accessRuleStringDelimiter = 0 ∧
  strings_Count path accessRuleStringDelimiter = 0.
Proof. apply authorize_rule_line. Qed.

Lemma allowed_iff_rule_line_witness :
  authorize {[ "GET" := ["/a"; "/b"] ]} "GET" "/b" = Ok true ↔
  ruleLine "GET" "/b" ∈ ["GET~/b"; "nonsense"; "GET~/a"] ∧
  strings_Count "GET" accessRuleStringDelimiter = 0 ∧
  strings_Count "/b" accessRuleStringDelimiter = 0.
Proof.
  apply (allowed_iff_rule_line ["GET~/b"; "nonsense"; "GET~/a"]
           {[ "GET" := ["/a"; "/b"] ]} "GET" "/b").
  vm_compute. reflexivity.
Defined.

(** X2: the decisions depend only on which lines occur in the rule file:
    two files with the same set of lines (in any order, with any
    repetitions) give the same answer to every probe. *)
Theorem same_lines_same_decisions lines lines' :
  (∀ rule, rule ∈ lines ↔ rule ∈ lines') →
  ∃ t t', determineAccessRules lines = Ok t ∧ determineAccessRules lines' = Ok t' ∧
    ∀ method path, authorize t method path = authorize t' method path.
Proof.
  intros Hsame.
  destruct (determineAccessRules_total lines) as [t Ht].
  destruct (determineAccessRules_total lines') as [t' Ht'].
  exists t, t'. split; [done|]. split; [done|]. intros method path.
  rewrite (authorize_compiled _ _ _ _ Ht), (authorize_compiled _ _ _ _ Ht'). f_equal.
  apply bool_decide_ext. rewrite !elem_of_pathsFor. by setoid_rewrite Hsame.
Qed.

Lemma same_lines_same_decisions_witness :
  ∃ t t', determineAccessRules ["GET~/a"; "PUT~/b"] = Ok t ∧
    determineAccessRules ["PUT~/b"; "GET~/a"; "PUT~/b"; "PUT~/b"] = Ok t' ∧
    ∀ method path, authorize t method path = authorize t' method path.
Proof.
  apply (same_lines_same_decisions ["GET~/a"; "PUT~/b"]
           ["PUT~/b"; "GET~/a"; "PUT~/b"; "PUT~/b"]).
  intros rule. rewrite !elem_of_cons, !elem_of_nil. tauto.
Defined.

(** X3: whatever the table (sorted or not), the request and the outside
    world, a call of the handler ends normally after writing exactly one
    body, and what it did before that write is nothing or one relay call
    with the outbound request of the inbound one. *)
Theorem handler_writes_exactly_once newRequestFails targetDo t r :
  ∃ body,
    run (obtainRequestHandler newRequestFails targetDo t r) = Ok [EvWrite body] ∨
    run (obtainRequestHandler newRequestFails targetDo t r)
      = Ok [EvDo (outbound r); EvWrite body].
Proof.
  destruct (supportedMethod (Method r)) eqn:Hm;
    [|rewrite (handle_unsupported _ _ _ _ Hm); eauto].
  destruct (authorize_total t (Method r) (URL_Path r)) as [[] Ha];
    [|rewrite (handle_denied _ _ _ _ Hm Ha); eauto].
  destruct (newRequestFails (Method r) ("http://unix" +:+ URL_Path r)) eqn:Hn;
    [rewrite (handle_construction_failure _ _ _ _ Hm Ha Hn); eauto|].
  destruct (targetDo (outbound r)) as [response|e] eqn:Hd.
  - rewrite (handle_relayed _ _ _ _ response Hm Ha Hn Hd). eauto.
  - rewrite (handle_relay_error _ _ _ _ e Hm Ha Hn Hd). eauto.
Qed.

(** X4: a request with a supported method and a path without [~], whose
    line [method~path] is in the rule file, whose outbound request can be
    built and which the target answers, is relayed once (with the outbound
    request built from its method, the URL text [http://unix] followed by
    its path, and its body), and the body of the answer is what the caller
    gets, unchanged. *)
Theorem listed_request_is_relayed newRequestFails targetDo accessRulesList r response :
  ruleLine (Method r) (URL_Path r) ∈ accessRulesList →
  strings_Count (URL_Path r) accessRuleStringDelimiter = 0 →
  supportedMethod (Method r) = true →
  newRequestFails (Method r) ("http://unix" +:+ URL_Path r) = false →
  targetDo (outbound r) = inl response →
  serve newRequestFails targetDo accessRulesList r
    = Ok [EvDo (outbound r); EvWrite (respBody response)].
Proof.
  intros Hin Hp Hm Hn Hd. unfold serve.
  destruct (determineAccessRules_total accessRulesList) as [t Ht]. rewrite Ht.
  cbn [mbind go_bind]. apply handle_relayed; [done| |done..].
  apply (authorize_rule_line _ _ _ _ Ht).
  split; [done|]. split; [by apply supportedMethod_no_delimiter|done].
Qed.

Lemma listed_request_is_relayed_witness :
  serve neverFails (fun _ => inl {| respBody := "[1,2]" |}) ["GET~/ids"; "PUT~/ids"]
    {| Method := "PUT"; URL_Path := "/ids"; Body := "3" |}
  = Ok [EvDo (outbound {| Method := "PUT"; URL_Path := "/ids"; Body := "3" |});
        EvWrite "[1,2]"].
Proof.
  apply (listed_request_is_relayed neverFails (fun _ => inl {| respBody := "[1,2]" |})
           ["GET~/ids"; "PUT~/ids"]
           {| Method := "PUT"; URL_Path := "/ids"; Body := "3" |}
           {| respBody := "[1,2]" |});
    [apply list_elem_of_further, list_elem_of_here|reflexivity..].
Defined.

(** A path with a [~] cannot be listed: its line has three fields and is
    skipped, so the request is denied. *)
Example path_with_delimiter_is_denied :
  serve neverFails (fun _ => inl {| respBody := "up" |}) ["GET~/a~b"]
    {| Method := "GET"; URL_Path := "/a~b"; Body := "" |}
  = Ok [EvWrite unauthorizedMsgString].
Proof. reflexivity. Qed.

(** X5: for every table, sorted or not, the relay is called only for a
    request with a supported method whose (method, path) pair is in the
    table, and only with the outbound request of that inbound one. *)
Theorem relay_only_for_present_pairs newRequestFails targetDo t r trace q :
  run (obtainRequestHandler newRequestFails targetDo t r) = Ok trace →
  EvDo q ∈ trace →
  supportedMethod (Method r) = true ∧
  present t (Method r) (URL_Path r) ∧
  q = outbound r.
Proof.
  intros Hrun Hq.
  destruct (supportedMethod (Method r)) eqn:Hm.
  - destruct (authorize_total t (Method r) (URL_Path r)) as [[] Ha].
    + split; [done|]. split; [by apply authorize_true_present|].
      destruct (handle_cases newRequestFails targetDo t r) as (trace' & Hrun' & _ & Hcalls).
      rewrite Hrun in Hrun'. injection Hrun' as <-.
      assert (q ∈ relayCalls trace) as Hin.
      { unfold relayCalls. apply list_elem_of_omap. by exists (EvDo q). }
      destruct Hcalls as [Hc|Hc]; rewrite Hc in Hin.
      * by apply elem_of_nil in Hin.
      * by apply list_elem_of_singleton in Hin.
    + rewrite (handle_denied _ _ _ _ Hm Ha) in Hrun. injection Hrun as <-.
      by apply list_elem_of_singleton in Hq.
  - rewrite (handle_unsupported _ _ _ _ Hm) in Hrun. injection Hrun as <-.
    by apply list_elem_of_singleton in Hq.
Qed.

Lemma relay_only_for_present_pairs_witness :
  supportedMethod "GET" = true ∧
  present {[ "GET" := ["/b"; "/a"; "/z"] ]} "GET" "/z" ∧
  outbound {| Method := "GET"; URL_Path := "/z"; Body := "" |}
  = outbound {| Method := "GET"; URL_Path := "/z"; Body := "" |}.
Proof.
  apply (relay_only_for_present_pairs neverFails noTarget {[ "GET" := ["/b"; "/a"; "/z"] ]}
           {| Method := "GET"; URL_Path := "/z"; Body := "" |}
           [EvDo (outbound {| Method := "GET"; URL_Path := "/z"; Body := "" |});
            EvWrite requestTimeoutString]).
  - reflexivity.
  - apply list_elem_of_here.
Defined.

(** * Properties of [readFileLines] *)

(** A closed decidable statement, by evaluating its decision procedure. *)
Ltac by_evaluation := apply (bool_decide_unpack _); vm_compute; exact I.

Lemma string_app_cons c (s1 s2 : string) : String c s1 +:+ s2 = String c (s1 +:+ s2).
Proof. reflexivity. Qed.

Lemma string_app_nil_r (s : string) : s +:+ EmptyString = s.
Proof. induction s as [|c s IH]; [done|]. by rewrite string_app_cons, IH. Qed.

Lemma string_app_assoc (s1 s2 s3 : string) : (s1 +:+ s2) +:+ s3 = s1 +:+ (s2 +:+ s3).
Proof. induction s1 as [|c s1 IH]; [done|]. by rewrite !string_app_cons, IH. Qed.

Lemma string_length_app (s1 s2 : string) :
  String.length (s1 +:+ s2) = String.length s1 + String.length s2.
Proof. induction s1 as [|c s1 IH]; [done|]. rewrite string_app_cons. cbn. by rewrite IH. Qed.

Lemma strings_Count_app s1 s2 sep :
  strings_Count (s1 +:+ s2) sep = strings_Count s1 sep + strings_Count s2 sep.
Proof.
  induction s1 as [|c s1 IH]; [done|]. rewrite string_app_cons. cbn. rewrite IH. lia.
Qed.

Lemma dropCR_cons_cons c c' rest :
  dropCR (String c (String c' rest)) = String c (dropCR (String c' rest)).
Proof. reflexivity. Qed.

Lemma dropCR_length data : String.length (dropCR data) ≤ String.length data.
Proof.
  induction data as [|c [|c' rest] IH]; [done| |].
  - cbn. destruct (Ascii.eqb c "013"); cbn; lia.
  - rewrite dropCR_cons_cons. cbn [String.length] in *. lia.
Qed.

Lemma dropCR_Count data sep :
  strings_Count data sep = 0 → strings_Count (dropCR data) sep = 0.
Proof.
  induction data as [|c [|c' rest] IH]; [done| |].
  - cbn. by destruct (Ascii.eqb c "013").
  - rewrite dropCR_cons_cons. cbn [strings_Count].
    destruct (Ascii.eqb c sep); [done|]. intros Hc. by rewrite IH.
Qed.

Lemma dropCR_carriage_return line :
  dropCR line = line → dropCR (line +:+ String "013" EmptyString) = line.
Proof.
  induction line as [|c [|c' rest] IH]; [done| |].
  - cbn. by destruct (Ascii.eqb c "013").
  - rewrite dropCR_cons_cons. intros [= Hl].
    rewrite !string_app_cons, dropCR_cons_cons, <-string_app_cons. by rewrite IH.
Qed.

(** Once 64 KiB of a line are read with no newline, the scanner gives up,
    whatever follows. *)
Lemma scanLines_too_long content line :
  bufio_MaxScanTokenSize ≤ String.length line → scanLines content line = ([], true).
Proof.
  revert line. induction content as [|c rest IH]; intros line Hlong; cbn [scanLines].
  - rewrite decide_False, decide_True; [done..|].
    unfold bufio_MaxScanTokenSize in Hlong. lia.
  - destruct (Ascii.eqb c "010"); [by rewrite decide_True|].
    apply IH. rewrite string_length_app. lia.
Qed.

Lemma scanLines_piece piece rest line :
  strings_Count piece "010" = 0 →
  scanLines (piece +:+ rest) line = scanLines rest (line +:+ piece).
Proof.
  revert line. induction piece as [|c piece IH]; intros line Hc.
  { by rewrite string_app_nil_r. }
  rewrite string_app_cons. cbn [scanLines strings_Count] in *.
  destruct (Ascii.eqb c "010"); [done|].
  rewrite IH by done. by rewrite string_app_assoc.
Qed.

Lemma scanLines_end_of_line crlf line rest :
  strings_Count line "010" = 0 → dropCR line = line →
  String.length line + String.length (endOfLine crlf) ≤ bufio_MaxScanTokenSize →
  scanLines (line +:+ endOfLine crlf +:+ rest) EmptyString
  = (line :: (scanLines rest EmptyString).1, (scanLines rest EmptyString).2).
Proof.
  intros Hc Hcr Hlen. rewrite scanLines_piece by done.
  change (EmptyString +:+ line) with line.
  destruct crlf; cbn [endOfLine] in *; rewrite !string_app_cons;
    change (EmptyString +:+ rest) with rest; cbn [scanLines].
  - change (Ascii.eqb "013" "010") with false. change (Ascii.eqb "010" "010") with true.
    cbn beta iota. rewrite decide_False.
    + by rewrite dropCR_carriage_return.
    + rewrite string_length_app. cbn [String.length] in *. lia.
  - change (Ascii.eqb "010" "010") with true. cbn beta iota.
    rewrite decide_False; [by rewrite Hcr|]. cbn [String.length] in *. lia.
Qed.

Lemma scanLines_fileText crlf lines rest :
  Forall (plainLine crlf) lines →
  scanLines (fileText crlf lines +:+ rest) EmptyString
  = (lines ++ (scanLines rest EmptyString).1, (scanLines rest EmptyString).2).
Proof.
  induction 1 as [|line lines (Hpos & Hc & Hcr & Hlen) _ IH]; cbn [fileText foldr].
  { change (EmptyString +:+ rest) with rest. by destruct (scanLines rest EmptyString). }
  rewrite !string_app_assoc.
  rewrite (scanLines_end_of_line crlf line _ Hc Hcr Hlen).
  fold (fileText crlf lines). by rewrite IH.
Qed.

Lemma plainLines_not_empty crlf lines :
  Forall (plainLine crlf) lines →
  filter (fun currentText => 0 < String.length currentText) lines = lines.
Proof.
  induction 1 as [|line lines (Hpos & _) _ IH]; [done|].
  by rewrite filter_cons_True, IH.
Qed.

Lemma scanLines_tokens content line :
  strings_Count line "010" = 0 →
  Forall (fun token => strings_Count token "010" = 0 ∧
                       String.length token < bufio_MaxScanTokenSize)
    (scanLines content line).1.
Proof.
  revert line. induction content as [|c rest IH]; intros line Hc; cbn [scanLines].
  - case_decide; [by constructor|]. case_decide; [by constructor|].
    cbn [fst]. constructor; [|by constructor].
    split; [by apply dropCR_Count|]. pose proof (dropCR_length line). lia.
  - destruct (Ascii.eqb c "010") eqn:Hnl.
    + case_decide; [by constructor|]. cbn [fst]. constructor; [|by apply IH].
      split; [by apply dropCR_Count|]. pose proof (dropCR_length line). lia.
    + apply IH. rewrite strings_Count_app. cbn [strings_Count]. rewrite Hnl. lia.
Qed.

Lemma repeatByte_length n c : String.length (repeatByte n c) = n.
Proof. unfold repeatByte. induction n as [|n IH]; [done|]. cbn. by rewrite IH. Qed.

Lemma repeatByte_Count n c sep :
  Ascii.eqb c sep = false → strings_Count (repeatByte n c) sep = 0.
Proof.
  intros Hc. unfold repeatByte. induction n as [|n IH]; [done|]. cbn. by rewrite Hc, IH.
Qed.

(** X6: a rule file that can be opened and whose lines are not empty,
    hold no newline byte, do not end in a carriage return and fit the
    scanner's buffer is read back as exactly those lines, whether the lines
    end in LF or in CRLF, and whether or not the last line has its end of
    line; a scan error is logged exactly when reading the file ended in an
    error. *)
Theorem readFileLines_round_trip os_Open filepath crlf lines final file :
  0 < String.length filepath →
  os_Open filepath = Some file →
  fileBytes file = fileText crlf lines +:+ final →
  Forall (plainLine crlf) lines →
  final = EmptyString ∨ plainLine crlf final →
  readFileLines os_Open filepath
  = (lines ++ (if decide (final = EmptyString) then [] else [final]),
     if fileReadError file then [ErrorScanningFile filepath] else []).
Proof.
  intros Hpath Hopen Hbytes Hlines Hfinal. unfold readFileLines.
  rewrite decide_False by lia. rewrite Hopen, Hbytes. cbn zeta.
  rewrite (scanLines_fileText crlf lines final Hlines). cbn [fst snd].
  rewrite filter_app, (plainLines_not_empty crlf lines Hlines).
  destruct Hfinal as [->|(Hpos & Hc & Hcr & Hlen)].
  - by rewrite decide_True.
  - rewrite <-(string_app_nil_r final) at 1 2. rewrite scanLines_piece by done.
    change (EmptyString +:+ final) with final. cbn [scanLines].
    destruct (decide (String.length final = 0)); [lia|].
    destruct (decide (bufio_MaxScanTokenSize ≤ String.length final)).
    { destruct crlf; cbn [endOfLine String.length] in Hlen; lia. }
    cbn [fst snd orb]. rewrite Hcr, filter_cons_True, filter_nil by done.
    rewrite decide_False; [done|]. intros ->. cbn in Hpos. lia.
Qed.

Lemma readFileLines_round_trip_witness :
  readFileLines
    (fun _ => Some {| fileBytes := fileText true ["GET~/a"; "PUT~/b"] +:+ "GET~/c";
                      fileReadError := false |}) "rules"
  = (["GET~/a"; "PUT~/b"] ++ (if decide ("GET~/c" = EmptyString) then [] else ["GET~/c"]),
     []).
Proof.
  apply (readFileLines_round_trip _ "rules" true ["GET~/a"; "PUT~/b"] "GET~/c"
           {| fileBytes := fileText true ["GET~/a"; "PUT~/b"] +:+ "GET~/c";
              fileReadError := false |}).
  - by_evaluation.
  - reflexivity.
  - reflexivity.
  - repeat (apply Forall_cons; split); [..|apply Forall_nil]; unfold plainLine; by_evaluation.
  - right. unfold plainLine. by_evaluation.
Defined.

(** X7: whatever the file holds, no line that [readFileLines] returns is
    empty, holds a newline byte, or is as long as the scanner's buffer. *)
Theorem readFileLines_lines os_Open filepath line :
  line ∈ (readFileLines os_Open filepath).1 →
  0 < String.length line ∧
  strings_Count line "010" = 0 ∧
  String.length line < bufio_MaxScanTokenSize.
Proof.
  unfold readFileLines. case_decide; [by intros ?%elem_of_nil|].
  destruct (os_Open filepath) as [file|]; [|by intros ?%elem_of_nil].
  cbn [fst]. intros [Hpos Hin]%list_elem_of_filter. split; [done|].
  pose proof (scanLines_tokens (fileBytes file) EmptyString eq_refl) as Htokens.
  rewrite Forall_forall in Htokens. by apply Htokens.
Qed.

Lemma readFileLines_lines_witness :
  0 < String.length "PUT~/b" ∧
  strings_Count "PUT~/b" "010" = 0 ∧
  String.length "PUT~/b" < bufio_MaxScanTokenSize.
Proof.
  apply (readFileLines_lines
           (fun _ => Some {| fileBytes := fileText false ["GET~/a"; ""; "PUT~/b"];
                             fileReadError := false |}) "rules" "PUT~/b").
  by_evaluation.
Defined.

(** X8: a line of 64 KiB or more stops the reading: the lines before it
    are returned, the long line and everything after it are dropped, and
    the scan error is logged. *)
Theorem readFileLines_line_too_long os_Open filepath crlf lines long rest file :
  0 < String.length filepath →
  os_Open filepath = Some file →
  fileBytes file = fileText crlf lines +:+ long +:+ rest →
  Forall (plainLine crlf) lines →
  strings_Count long "010" = 0 →
  bufio_MaxScanTokenSize ≤ String.length long →
  readFileLines os_Open filepath = (lines, [ErrorScanningFile filepath]).
Proof.
  intros Hpath Hopen Hbytes Hlines Hc Hlong. unfold readFileLines.
  rewrite decide_False by lia. rewrite Hopen, Hbytes. cbn zeta.
  rewrite (scanLines_fileText crlf lines _ Hlines), scanLines_piece by done.
  rewrite scanLines_too_long by done. cbn [fst snd orb].
  by rewrite app_nil_r, (plainLines_not_empty crlf lines Hlines).
Qed.

Lemma readFileLines_line_too_long_witness :
  readFileLines
    (fun _ => Some {| fileBytes := fileText false ["GET~/a"]
                                   +:+ repeatByte bufio_MaxScanTokenSize "x"
                                   +:+ fileText false ["PUT~/b"];
                      fileReadError := false |}) "rules"
  = (["GET~/a"], [ErrorScanningFile "rules"]).
Proof.
  apply (readFileLines_line_too_long _ "rules" false ["GET~/a"]
           (repeatByte bufio_MaxScanTokenSize "x") (fileText false ["PUT~/b"])
           {| fileBytes := fileText false ["GET~/a"]
                           +:+ repeatByte bufio_MaxScanTokenSize "x"
                           +:+ fileText false ["PUT~/b"];
              fileReadError := false |}).
  - by_evaluation.
  - reflexivity.
  - reflexivity.
  - repeat (apply Forall_cons; split); [..|apply Forall_nil]; unfold plainLine; by_evaluation.
  - by apply repeatByte_Count.
  - by rewrite repeatByte_length.
Defined.

(** X9: when no rule file is named or the named file cannot be opened,
    the program still serves, with an empty table: every request with a
    supported method gets the unauthorized body and the target socket is
    not contacted. *)
Theorem unreadable_rule_file_denies os_Open newRequestFails targetDo filepath r :
  String.length filepath = 0 ∨ os_Open filepath = None →
  supportedMethod (Method r) = true →
  veil os_Open newRequestFails targetDo filepath r = Ok [EvWrite unauthorizedMsgString].
Proof.
  intros Hfile Hm. unfold veil.
  assert ((readFileLines os_Open filepath).1 = []) as ->.
  { unfold readFileLines. destruct Hfile as [Hlen|Hopen].
    - by rewrite decide_True.
    - case_decide; [done|]. by rewrite Hopen. }
  unfold serve. cbn [determineAccessRules rangeRules mbind go_bind].
  apply handle_denied; [done|]. apply authorize_None. by rewrite fmap_empty.
Qed.

Lemma unreadable_rule_file_denies_witness :
  veil (fun _ => None) neverFails noTarget "missing.txt"
    {| Method := "GET"; URL_Path := "/status"; Body := "" |}
  = Ok [EvWrite unauthorizedMsgString].
Proof.
  apply (unreadable_rule_file_denies (fun _ => None) neverFails noTarget "missing.txt"
           {| Method := "GET"; URL_Path := "/status"; Body := "" |}).
  - right. reflexivity.
  - reflexivity.
Defined.

(** * Properties of the path-keyed program *)

Lemma elem_of_uniqLoop a seen x : x ∈ uniqLoop a seen ↔ x ∈ a ∧ x ∉ seen.
Proof.
  revert seen. induction a as [|v rest IH]; intros seen; cbn [uniqLoop].
  { rewrite !elem_of_nil. tauto. }
  case_decide as Hv.
  - rewrite IH, elem_of_cons. split; [tauto|]. intros [[->|Hx] Hn]; [done|tauto].
  - rewrite !elem_of_cons, IH. rewrite not_elem_of_union, not_elem_of_singleton.
    destruct (decide (x = v)) as [->|Hne]; [tauto|]. tauto.
Qed.

Lemma NoDup_uniqLoop a seen : NoDup (uniqLoop a seen).
Proof.
  revert seen. induction a as [|v rest IH]; intros seen; cbn [uniqLoop]; [constructor|].
  case_decide; [apply IH|]. constructor; [|apply IH].
  rewrite elem_of_uniqLoop, not_elem_of_union, not_elem_of_singleton. tauto.
Qed.

Lemma StronglySorted_uniqLoop (R : relation string) a seen :
  StronglySorted R a → StronglySorted R (uniqLoop a seen).
Proof.
  intros Ha. revert seen. induction Ha as [|v rest Hrest IH Hv]; intros seen;
    cbn [uniqLoop]; [constructor|].
  case_decide; [apply IH|]. constructor; [apply IH|].
  rewrite Forall_forall in Hv |- *. intros x [Hx _]%elem_of_uniqLoop. by apply Hv.
Qed.

Lemma elem_of_funk_UniqString a x : x ∈ funk_UniqString a ↔ x ∈ a.
Proof.
  unfold funk_UniqString. rewrite elem_of_uniqLoop.
  pose proof (not_elem_of_empty (C := gset string) x). tauto.
Qed.

Lemma StronglySorted_strict (a : list string) :
  StronglySorted String.le a → NoDup a → StronglySorted (strict String.le) a.
Proof.
  induction 1 as [|x a Ha IH Hx]; intros Hnd; [constructor|].
  apply NoDup_cons in Hnd as [Hnotin Hnd]. constructor; [by apply IH|].
  rewrite Forall_forall in Hx |- *. intros y Hy. split; [by apply Hx|].
  intros Hyx. assert (x = y) as -> by (apply (anti_symm String.le); auto). done.
Qed.

Lemma PathKeyed_addRule_parse t rule :
  PathKeyed.addRule t rule =
    Ok (match parseRule rule with
        | Some (method, path) => <[path := default [] (t !! path) ++ [method]]> t
        | None => t
        end).
Proof.
  unfold PathKeyed.addRule, parseRule. cbn zeta.
  destruct (strings_Split _ _) as [|method [|path [|c fields]]]; simpl; [done..| |done].
  destruct (t !! path) as [methods|] eqn:Hp; cbn.
  - by rewrite Hp.
  - by rewrite lookup_insert_eq, insert_insert_eq.
Qed.

Lemma PathKeyed_rangeRules_lookup accessRulesList t :
  ∃ t', PathKeyed.rangeRules accessRulesList t = Ok t' ∧
    ∀ path, t' !! path =
      match t !! path, methodsFor path accessRulesList with
      | None, [] => None
      | old, methods => Some (default [] old ++ methods)
      end.
Proof.
  revert t. induction accessRulesList as [|rule rest IH]; intros t;
    cbn [PathKeyed.rangeRules].
  { exists t. split; [done|]. intros path. cbn.
    destruct (t !! path); cbn; by rewrite ?app_nil_r. }
  rewrite PathKeyed_addRule_parse. cbn [mbind go_bind].
  destruct (IH (match parseRule rule with
                | Some (method, path) => <[path := default [] (t !! path) ++ [method]]> t
                | None => t
                end)) as (t' & -> & Ht').
  exists t'. split; [done|]. intros path. rewrite Ht'. unfold methodsFor.
  cbn [omap list_omap].
  destruct (parseRule rule) as [[method p]|]; [|done].
  case_decide as Hp.
  - subst p. rewrite lookup_insert_eq. cbn.
    destruct (t !! path); cbn; by rewrite <-?app_assoc.
  - by rewrite lookup_insert_ne.
Qed.

Lemma PathKeyed_determineAccessRules_lookup accessRulesList :
  ∃ t, PathKeyed.determineAccessRules accessRulesList = Ok t ∧
    ∀ path, t !! path =
      match methodsFor path accessRulesList with
      | [] => None
      | methods => Some (funk_UniqString (sort_Strings methods))
      end.
Proof.
  unfold PathKeyed.determineAccessRules.
  destruct (PathKeyed_rangeRules_lookup accessRulesList ∅) as (t & -> & Ht).
  eexists. split; [done|]. intros path.
  rewrite lookup_fmap, Ht, lookup_empty.
  by destruct (methodsFor path accessRulesList).
Qed.

Lemma elem_of_methodsFor method path accessRulesList :
  method ∈ methodsFor path accessRulesList ↔
  ∃ rule, rule ∈ accessRulesList ∧ parseRule rule = Some (method, path).
Proof.
  unfold methodsFor. rewrite list_elem_of_omap. split.
  - intros (rule & Hin & Hrule). exists rule. split; [done|].
    destruct (parseRule rule) as [[m q]|]; [|done]. case_decide; naive_solver.
  - intros (rule & Hin & Hrule). exists rule. split; [done|].
    rewrite Hrule. by rewrite decide_True.
Qed.

Lemma listed_compiled accessRulesList t method path :
  PathKeyed.determineAccessRules accessRulesList = Ok t →
  listed t method path ↔ method ∈ methodsFor path accessRulesList.
Proof.
  intros Ht.
  destruct (PathKeyed_determineAccessRules_lookup accessRulesList) as (t' & Ht' & Hlookup).
  rewrite Ht in Ht'. injection Ht' as <-. unfold listed. rewrite Hlookup.
  destruct (methodsFor path accessRulesList) as [|m ms] eqn:Hms.
  - split; [by intros (? & ? & ?)|by intros ?%elem_of_nil].
  - split.
    + intros (methods & [= <-] & Hin).
      by rewrite elem_of_funk_UniqString, elem_of_sort_Strings in Hin.
    + intros Hin. eexists. split; [done|].
      by rewrite elem_of_funk_UniqString, elem_of_sort_Strings.
Qed.

(** X10: the path-keyed compiler never panics, and in its table the list
    of methods of every path is strictly increasing (so without
    duplicates) and holds exactly the methods that a line [method~path] of
    the rule file gives to the path. *)
Theorem PathKeyed_groups_strictly_sorted accessRulesList :
  ∃ t, PathKeyed.determineAccessRules accessRulesList = Ok t ∧
    ∀ path methods, t !! path = Some methods →
      StronglySorted (strict String.le) methods ∧
      NoDup methods ∧
      ∀ method, method ∈ methods ↔
        ruleLine method path ∈ accessRulesList ∧
        strings_Count method accessRuleStringDelimiter = 0 ∧
        strings_Count path accessRuleStringDelimiter = 0.
Proof.
  destruct (PathKeyed_determineAccessRules_lookup accessRulesList) as (t & Ht & Hlookup).
  exists t. split; [done|]. intros path methods Hp.
  assert (NoDup methods ∧ StronglySorted String.le methods) as [Hnd Hs].
  { rewrite Hlookup in Hp. destruct (methodsFor path accessRulesList); [done|].
    injection Hp as <-. split; [apply NoDup_uniqLoop|].
    apply StronglySorted_uniqLoop, sort_Strings_sorted. }
  split; [by apply StronglySorted_strict|]. split; [done|]. intros method.
  transitivity (listed t method path).
  { unfold listed. rewrite Hp. split; [eauto|]. by intros (? & [= <-] & ?). }
  rewrite (listed_compiled _ _ _ _ Ht), elem_of_methodsFor. split.
  - intros (rule & Hin & (-> & Hm & Hq)%parseRule_Some). done.
  - intros (Hin & Hm & Hq). exists (ruleLine method path). split; [done|].
    by apply parseRule_Some.
Qed.

(** X11: the two compilers hold the same pairs: (method, path) is in the
    method-keyed table of a rule file exactly when it is in its path-keyed
    table. *)
Theorem tables_hold_the_same_pairs accessRulesList byMethod byPath method path :
  determineAccessRules accessRulesList = Ok byMethod →
  PathKeyed.determineAccessRules accessRulesList = Ok byPath →
  present byMethod method path ↔ listed byPath method path.
Proof.
  intros Hm Hp. rewrite (present_compiled _ _ _ _ Hm), (listed_compiled _ _ _ _ Hp).
  by rewrite elem_of_pathsFor, elem_of_methodsFor.
Qed.

Lemma tables_hold_the_same_pairs_witness :
  present {[ "GET" := ["/a"; "/a"; "/b"]; "PUT" := ["/a"] ]} "GET" "/a" ↔
  listed {[ "/a" := ["GET"; "PUT"]; "/b" := ["GET"] ]} "GET" "/a".
Proof.
  apply (tables_hold_the_same_pairs ["GET~/b"; "GET~/a"; "PUT~/a"; "GET~/a"]).
  - vm_compute. reflexivity.
  - vm_compute. reflexivity.
Defined.

(** X12: the handler of the method-keyed program is the relay handler of
    the path-keyed one behind the allow/deny decision: on a supported
    method that the table denies it writes its unauthorized body, and in
    every other case the two handlers have the same effects. *)
Theorem handler_is_guarded_relay newRequestFails targetDo t r allowed :
  authorize t (Method r) (URL_Path r) = Ok allowed →
  run (obtainRequestHandler newRequestFails targetDo t r)
  = if supportedMethod (Method r) && negb allowed
    then Ok [EvWrite unauthorizedMsgString]
    else run (PathKeyed.obtainSocketRequestHandler newRequestFails targetDo r).
Proof.
  intros Ha. unfold PathKeyed.obtainSocketRequestHandler. handler_steps.
  rewrite Ha. destruct (supportedMethod (Method r)); [|done].
  by destruct allowed.
Qed.

Lemma handler_is_guarded_relay_witness :
  run (obtainRequestHandler neverFails noTarget {[ "GET" := ["/a"] ]}
         {| Method := "GET"; URL_Path := "/a"; Body := "" |})
  = if supportedMethod "GET" && negb true
    then Ok [EvWrite unauthorizedMsgString]
    else run (PathKeyed.obtainSocketRequestHandler neverFails noTarget
                {| Method := "GET"; URL_Path := "/a"; Body := "" |}).
Proof.
  apply (handler_is_guarded_relay neverFails noTarget {[ "GET" := ["/a"] ]}
           {| Method := "GET"; URL_Path := "/a"; Body := "" |} true).
  reflexivity.
Defined.

(** * More on the compiled table and on the library pieces *)

(** X13: a method is a key of the compiled table exactly when some line of
    the rule file is that method, one [~] and a path; the method is not
    checked against the supported ones, and no key holds an empty list. *)
Theorem table_keys_are_the_methods_of_the_rules accessRulesList t method :
  determineAccessRules accessRulesList = Ok t →
  (is_Some (t !! method) ↔
   ∃ path, ruleLine method path ∈ accessRulesList ∧
     strings_Count method accessRuleStringDelimiter = 0 ∧
     strings_Count path accessRuleStringDelimiter = 0) ∧
  t !! method ≠ Some [].
Proof.
  intros Ht.
  destruct (determineAccessRules_lookup accessRulesList) as (t' & Ht' & Hlookup).
  rewrite Ht in Ht'. injection Ht' as <-. rewrite Hlookup. unfold groupOf. split.
  - split.
    + intros Hsome. destruct (pathsFor method accessRulesList) as [|path paths] eqn:Hps;
        [by destruct Hsome|].
      assert (path ∈ pathsFor method accessRulesList) as Hin by (rewrite Hps; left).
      apply elem_of_pathsFor in Hin as (rule & Hin & (-> & Hm & Hp)%parseRule_Some).
      eauto.
    + intros (path & Hin & Hm & Hp).
      assert (path ∈ pathsFor method accessRulesList) as Hps.
      { apply elem_of_pathsFor. exists (ruleLine method path). split; [done|].
        by apply parseRule_Some. }
      destruct (pathsFor method accessRulesList); [by apply elem_of_nil in Hps|eauto].
  - destruct (pathsFor method accessRulesList) as [|path paths] eqn:Hps; [done|].
    intros [= Hnil]. pose proof (sort_Strings_Permutation (path :: paths)) as Hperm.
    rewrite Hnil in Hperm. by apply Permutation_nil_cons in Hperm.
Qed.

Lemma table_keys_are_the_methods_of_the_rules_witness :
  (is_Some (({[ "OPTIONS" := ["/x"]; "GET" := ["/a"] ]} : gmap string (list string))
              !! "OPTIONS") ↔
   ∃ path, ruleLine "OPTIONS" path ∈ ["GET~/a"; "OPTIONS~/x"; "PUT"] ∧
     strings_Count "OPTIONS" accessRuleStringDelimiter = 0 ∧
     strings_Count path accessRuleStringDelimiter = 0) ∧
  ({[ "OPTIONS" := ["/x"]; "GET" := ["/a"] ]} : gmap string (list string))
    !! "OPTIONS" ≠ Some [].
Proof.
  apply (table_keys_are_the_methods_of_the_rules ["GET~/a"; "OPTIONS~/x"; "PUT"]
           {[ "OPTIONS" := ["/x"]; "GET" := ["/a"] ]} "OPTIONS").
  vm_compute. reflexivity.
Defined.

(** X14: splitting a string at a byte and joining the fields with that
    byte gives the string back; there is one field more than there are
    separators, and no field holds the separator. *)
Theorem strings_Split_round_trip s sep :
  strings_Join (strings_Split s sep) sep = s ∧
  length (strings_Split s sep) = S (strings_Count s sep) ∧
  Forall (fun field => strings_Count field sep = 0) (strings_Split s sep).
Proof.
  split; [apply strings_Split_Join|]. split;
    [apply strings_Split_length|apply strings_Split_fields].
Qed.

(** X15: on a sorted slice the binary search returns the insertion point
    of [x]: an index within [0, len], with every string before it smaller
    than [x] and every string from it on at least [x]. *)
Theorem sort_SearchStrings_insertion_point a x :
  StronglySorted String.le a →
  sort_SearchStrings a x ≤ length a ∧
  (∀ k y, k < sort_SearchStrings a x → a !! k = Some y → strict String.le y x) ∧
  (∀ k y, sort_SearchStrings a x ≤ k → a !! k = Some y → String.le x y).
Proof.
  intros Ha. split; [apply sort_SearchStrings_le|].
  set (f := fun i => match a !! i with
                     | Some y => bool_decide (String.le x y)
                     | None => false
                     end).
  destruct (sort_Search_spec f (length a)) as [Hlo Hhi].
  { intros i j Hij Hj. unfold f.
    destruct (a !! i) as [y|] eqn:Hi; [|done].
    destruct (lookup_lt_is_Some_2 a j Hj) as [z Hz]. rewrite Hz.
    rewrite !bool_decide_eq_true. intros Hxy. etrans; [done|].
    by apply (StronglySorted_lookup_le a i j y z). }
  change (sort_Search (length a) f) with (sort_SearchStrings a x) in Hlo, Hhi.
  split.
  - intros k y Hk Hy. specialize (Hlo k Hk). unfold f in Hlo. rewrite Hy in Hlo.
    apply bool_decide_eq_false in Hlo. split; [|done].
    by destruct (total String.le x y).
  - intros k y Hk Hy. specialize (Hhi k Hk (lookup_lt_Some _ _ _ Hy)).
    unfold f in Hhi. rewrite Hy in Hhi. by apply bool_decide_eq_true in Hhi.
Qed.

Lemma sort_SearchStrings_insertion_point_witness :
  sort_SearchStrings ["/a"; "/b"; "/b"; "/d"] "/c" ≤ length ["/a"; "/b"; "/b"; "/d"] ∧
  (∀ k y, k < sort_SearchStrings ["/a"; "/b"; "/b"; "/d"] "/c" →
     ["/a"; "/b"; "/b"; "/d"] !! k = Some y → strict String.le y "/c") ∧
  (∀ k y, sort_SearchStrings ["/a"; "/b"; "/b"; "/d"] "/c" ≤ k →
     ["/a"; "/b"; "/b"; "/d"] !! k = Some y → String.le "/c" y).
Proof.
  apply (sort_SearchStrings_insertion_point ["/a"; "/b"; "/b"; "/d"] "/c").
  by_evaluation.
Defined.

(** * The added pieces on small inputs *)

Example read_skips_blank_lines :
  readFileLines
    (fun _ => Some {| fileBytes := fileText false ["GET~/a"; ""; "PUT~/b"; ""];
                      fileReadError := false |}) "rules"
  = (["GET~/a"; "PUT~/b"], []).
Proof. by vm_compute. Qed.

Example read_drops_one_carriage_return :
  (scanLines (fileText true ["GET~/a"] +:+ fileText true [String "013" EmptyString])
     EmptyString).1
  = ["GET~/a"; String "013" EmptyString].
Proof. by vm_compute. Qed.

Example read_no_path : readFileLines (fun _ => None) "" = ([], []).
Proof. reflexivity. Qed.

Example uniq_keeps_first_occurrences :
  funk_UniqString ["b"; "a"; "b"; "c"; "a"] = ["b"; "a"; "c"].
Proof. by vm_compute. Qed.

Example path_keyed_compile :
  PathKeyed.determineAccessRules ["PUT~/a"; "GET~/a"; "PUT~/a"; "GET~/b"; "GET"]
  = Ok {[ "/a" := ["GET"; "PUT"]; "/b" := ["GET"] ]}.
Proof. by vm_compute. Qed.
